(** * dotdox comment processors: entities, tag interpretation, document index
      and dotted-path resolution (tasks/dotdox/processors.js)

    The JavaScript objects of the module are embedded with explicit state
    passing.  Every [CommentContext] object lives in a heap and is named by
    its index there; the [DocContext] maps and the children arrays hold such
    indices, so that aliasing is kept.  Promises, the one-shot subscriptions
    of the event bus, the microtask queue and the console are components of
    the state too. *)

From stdpp Require Import gmap strings list fin_maps.
From Stdlib Require Import Ascii.

(** [a === b] on strings *)
Infix "=?" := String.eqb (at level 70) : stdpp_scope.

(** ** Values *)

(** A reference to a [CommentContext] object: its index in the heap. *)
Abbreviation ref := nat.

(** The values a variable such as [ctx] in [getClass] can hold: [null],
    [undefined], a [CommentContext] object, or a member of
    [Object.prototype] found through the prototype chain of an object
    literal [{}]. *)
Inductive jsval : Type :=
| JNull
| JUndefined
| JRef (r : ref)
| JProto (key : string).

(** ToBoolean: objects and functions are truthy. *)
Definition truthy (v : jsval) : bool :=
  match v with
  | JNull | JUndefined => false
  | JRef _ | JProto _ => true
  end.

(** ** Comments and tags as delivered by the comment extractor *)

Record Tag := mkTag {
  tag_type : string;          (* tag.type *)
  tag_string : string;        (* tag.string *)
  tag_types : list string;    (* tag.types *)
  tag_parent : string         (* tag.parent *)
}.

Record Comment := mkComment {
  c_tags : list Tag;
  c_description : string;
  c_body : string;
  c_content : string;
  c_code : string;
  c_isPrivate : bool
}.

(** ** CommentContext *)

Record CommentContext := mkCommentContext {
  _parent : jsval;
  _children : list ref;
  isClass : bool;
  isModule : bool;
  isFunction : bool;
  isConstant : bool;
  isIgnored : bool;
  isEnum : bool;
  isPrivate : bool;
  name : string;
  types : list string;
  see : option Tag;
  value : string;
  parentName : string;
  params : list Tag;
  returns : option Tag;
  tags : list Tag;
  description : string;
  body : string;
  content : string;
  code : string
}.

(** [Object.defineProperties(this, { "_parent" : { "value" : undefined }, ... })]:
    the descriptor gives no [writable] attribute, which then defaults to
    [false].  The module is not in strict mode, so a later assignment to the
    property is ignored without an exception. *)
Definition _parent_writable : bool := false.

(** The fields as the constructor leaves them before [processTags] runs. *)
Definition CommentContext_fields (comment : Comment) : CommentContext :=
  {| _parent := JUndefined;
     _children := [];
     isClass := false;
     isModule := false;
     isFunction := false;
     isConstant := false;
     isIgnored := false;
     isEnum := false;
     isPrivate := c_isPrivate comment;
     name := "";
     types := [];
     see := None;
     value := "";
     parentName := "";
     params := [];
     returns := None;
     tags := c_tags comment;
     description := c_description comment;
     body := c_body comment;
     content := c_content comment;
     code := c_code comment |}.

Section Setters.
Variable e : CommentContext.

Definition with_parent (v : jsval) : CommentContext :=
  mkCommentContext v (_children e) (isClass e) (isModule e) (isFunction e)
    (isConstant e) (isIgnored e) (isEnum e) (isPrivate e) (name e) (types e)
    (see e) (value e) (parentName e) (params e) (returns e) (tags e)
    (description e) (body e) (content e) (code e).
Definition with_children (l : list ref) : CommentContext :=
  mkCommentContext (_parent e) l (isClass e) (isModule e) (isFunction e)
    (isConstant e) (isIgnored e) (isEnum e) (isPrivate e) (name e) (types e)
    (see e) (value e) (parentName e) (params e) (returns e) (tags e)
    (description e) (body e) (content e) (code e).
Definition with_isClass (b : bool) : CommentContext :=
  mkCommentContext (_parent e) (_children e) b (isModule e) (isFunction e)
    (isConstant e) (isIgnored e) (isEnum e) (isPrivate e) (name e) (types e)
    (see e) (value e) (parentName e) (params e) (returns e) (tags e)
    (description e) (body e) (content e) (code e).
Definition with_isModule (b : bool) : CommentContext :=
  mkCommentContext (_parent e) (_children e) (isClass e) b (isFunction e)
    (isConstant e) (isIgnored e) (isEnum e) (isPrivate e) (name e) (types e)
    (see e) (value e) (parentName e) (params e) (returns e) (tags e)
    (description e) (body e) (content e) (code e).
Definition with_isFunction (b : bool) : CommentContext :=
  mkCommentContext (_parent e) (_children e) (isClass e) (isModule e) b
    (isConstant e) (isIgnored e) (isEnum e) (isPrivate e) (name e) (types e)
    (see e) (value e) (parentName e) (params e) (returns e) (tags e)
    (description e) (body e) (content e) (code e).
Definition with_isConstant (b : bool) : CommentContext :=
  mkCommentContext (_parent e) (_children e) (isClass e) (isModule e)
    (isFunction e) b (isIgnored e) (isEnum e) (isPrivate e) (name e) (types e)
    (see e) (value e) (parentName e) (params e) (returns e) (tags e)
    (description e) (body e) (content e) (code e).
Definition with_isIgnored (b : bool) : CommentContext :=
  mkCommentContext (_parent e) (_children e) (isClass e) (isModule e)
    (isFunction e) (isConstant e) b (isEnum e) (isPrivate e) (name e) (types e)
    (see e) (value e) (parentName e) (params e) (returns e) (tags e)
    (description e) (body e) (content e) (code e).
Definition with_isEnum (b : bool) : CommentContext :=
  mkCommentContext (_parent e) (_children e) (isClass e) (isModule e)
    (isFunction e) (isConstant e) (isIgnored e) b (isPrivate e) (name e)
    (types e) (see e) (value e) (parentName e) (params e) (returns e) (tags e)
    (description e) (body e) (content e) (code e).
Definition with_isPrivate (b : bool) : CommentContext :=
  mkCommentContext (_parent e) (_children e) (isClass e) (isModule e)
    (isFunction e) (isConstant e) (isIgnored e) (isEnum e) b (name e)
    (types e) (see e) (value e) (parentName e) (params e) (returns e) (tags e)
    (description e) (body e) (content e) (code e).
Definition with_name (s : string) : CommentContext :=
  mkCommentContext (_parent e) (_children e) (isClass e) (isModule e)
    (isFunction e) (isConstant e) (isIgnored e) (isEnum e) (isPrivate e) s
    (types e) (see e) (value e) (parentName e) (params e) (returns e) (tags e)
    (description e) (body e) (content e) (code e).
Definition with_types (l : list string) : CommentContext :=
  mkCommentContext (_parent e) (_children e) (isClass e) (isModule e)
    (isFunction e) (isConstant e) (isIgnored e) (isEnum e) (isPrivate e)
    (name e) l (see e) (value e) (parentName e) (params e) (returns e)
    (tags e) (description e) (body e) (content e) (code e).
Definition with_see (t : option Tag) : CommentContext :=
  mkCommentContext (_parent e) (_children e) (isClass e) (isModule e)
    (isFunction e) (isConstant e) (isIgnored e) (isEnum e) (isPrivate e)
    (name e) (types e) t (value e) (parentName e) (params e) (returns e)
    (tags e) (description e) (body e) (content e) (code e).
Definition with_value (s : string) : CommentContext :=
  mkCommentContext (_parent e) (_children e) (isClass e) (isModule e)
    (isFunction e) (isConstant e) (isIgnored e) (isEnum e) (isPrivate e)
    (name e) (types e) (see e) s (parentName e) (params e) (returns e)
    (tags e) (description e) (body e) (content e) (code e).
Definition with_parentName (s : string) : CommentContext :=
  mkCommentContext (_parent e) (_children e) (isClass e) (isModule e)
    (isFunction e) (isConstant e) (isIgnored e) (isEnum e) (isPrivate e)
    (name e) (types e) (see e) (value e) s (params e) (returns e)
    (tags e) (description e) (body e) (content e) (code e).
Definition with_params (l : list Tag) : CommentContext :=
  mkCommentContext (_parent e) (_children e) (isClass e) (isModule e)
    (isFunction e) (isConstant e) (isIgnored e) (isEnum e) (isPrivate e)
    (name e) (types e) (see e) (value e) (parentName e) l (returns e)
    (tags e) (description e) (body e) (content e) (code e).
Definition with_returns (t : option Tag) : CommentContext :=
  mkCommentContext (_parent e) (_children e) (isClass e) (isModule e)
    (isFunction e) (isConstant e) (isIgnored e) (isEnum e) (isPrivate e)
    (name e) (types e) (see e) (value e) (parentName e) (params e) t
    (tags e) (description e) (body e) (content e) (code e).
End Setters.

(** An assignment [o._parent = v] and an array push on [o._children].  The
    push mutates the array the read-only property holds, so it always takes
    effect; the assignment goes through the property's [writable]
    attribute. *)
Definition assign_parent (v : jsval) (e : CommentContext) : CommentContext :=
  if _parent_writable then with_parent e v else e.
Definition push_child (c : ref) (e : CommentContext) : CommentContext :=
  with_children e (_children e ++ [c]).

(** ** The heap of CommentContext objects *)

Abbreviation Heap := (list CommentContext).

Definition children_of (h : Heap) (r : ref) : list ref :=
  match h !! r with
  | Some e => _children e
  | None => []
  end.

(** [v && (v.name === name)] for [v] one of the accumulators of the
    reductions below: [null], [undefined] or a child. *)
Definition named (h : Heap) (n : string) (v : jsval) : bool :=
  match v with
  | JRef r =>
      match h !! r with
      | Some e => String.eqb (name e) n
      | None => false
      end
  | _ => false
  end.

(** CommentContext.prototype.getChildren *)
Definition getChildren (h : Heap) (this : ref) (n : string) : list ref :=
  List.filter (fun child => named h n (JRef child)) (children_of h this).

(** The callback shared by [getFirstChild] and [getLastChild]. *)
Definition pick (h : Heap) (n : string) (prev : jsval) (current : ref) : jsval :=
  if named h n prev then prev
  else if named h n (JRef current) then JRef current
  else JUndefined.

(** CommentContext.prototype.getFirstChild: [reduce] from the left, initial
    value [null]. *)
Definition getFirstChild (h : Heap) (this : ref) (n : string) : jsval :=
  fold_left (pick h n) (children_of h this) JNull.

(** CommentContext.prototype.getLastChild: [reduceRight], initial value
    [null]. *)
Definition getLastChild (h : Heap) (this : ref) (n : string) : jsval :=
  fold_right (fun current prev => pick h n prev current) JNull
    (children_of h this).

(** ** Strings: [split(".")] and [join(".")] *)

Fixpoint split_on (sep : ascii) (s : string) : list string :=
  match s with
  | EmptyString => [EmptyString]
  | String c rest =>
      if Ascii.eqb c sep then EmptyString :: split_on sep rest
      else match split_on sep rest with
           | [] => [String c EmptyString]
           | x :: xs => String c x :: xs
           end
  end.

Definition split_dot (s : string) : list string := split_on "."%char s.
Definition join_dot (l : list string) : string := String.concat "." l.

(** ** Objects used as maps

    [this.classes = {}] and its siblings are plain objects, so the [in]
    operator and a property read also see the members of
    [Object.prototype]. *)
Definition object_prototype_keys : list string :=
  [ "constructor"; "__defineGetter__"; "__defineSetter__"; "hasOwnProperty";
    "__lookupGetter__"; "__lookupSetter__"; "isPrototypeOf";
    "propertyIsEnumerable"; "toString"; "valueOf"; "__proto__";
    "toLocaleString" ].

Definition inherited (k : string) : bool :=
  existsb (String.eqb k) object_prototype_keys.

(** [k in m] *)
Definition obj_in (k : string) (m : gmap string ref) : bool :=
  match m !! k with
  | Some _ => true
  | None => inherited k
  end.

(** [m[k]] *)
Definition obj_get (m : gmap string ref) (k : string) : jsval :=
  match m !! k with
  | Some r => JRef r
  | None => if inherited k then JProto k else JUndefined
  end.

(** ** DocContext *)

Record DocContext := mkDocContext {
  options_verbose : bool;     (* this.options.verbose *)
  comments : list Comment;
  classes : gmap string ref;
  modules : gmap string ref;
  functions : gmap string ref;
  constants : gmap string ref;
  misc : list ref
}.

Definition DocContext_new (verbose : bool) : DocContext :=
  {| options_verbose := verbose;
     comments := [];
     classes := ∅;
     modules := ∅;
     functions := ∅;
     constants := ∅;
     misc := [] |}.

(** ** Promises, subscriptions, console *)

Inductive PromiseState : Type :=
| Pending
| Fulfilled (v : jsval)
| Rejected.

(** A promise made by [getClass].  [p_then] is the object captured by the
    reaction [function (cls) { cls.addChild(this); }.bind(this)] once
    [then] has registered it. *)
Record Promise := mkPromise {
  p_state : PromiseState;
  p_then : option ref
}.

(** The closure [function (ctx) { walkParts(ctx, resolve); }] handed to
    [subscribeOnce]: it captures [name], [parts] and the [resolve] function
    of one promise. *)
Record Waiter := mkWaiter {
  w_name : string;
  w_parts : list string;
  w_resolve : nat
}.

(** A queued promise reaction: promise, fulfilment value, captured child. *)
Record Job := mkJob {
  j_promise : nat;
  j_value : jsval;
  j_child : ref
}.

Inductive LogEntry : Type :=
| WarnUnrecognizedKind (t : Tag)      (* console.warn("Unrecognized kind:", tag) *)
| WarnUnrecognizedTag (t : Tag)       (* console.warn("Unrecognized tag:", tag) *)
| WarnUnrecognizedComment (r : ref)   (* console.warn("Unrecognized comment kind:", ...) *)
| LogWaitingFor (path : string).      (* console.log("* TODO: waiting for:", ...) *)

(** ** The whole state *)

Record World := mkWorld {
  heap : Heap;
  doc : DocContext;
  subs : list (string * Waiter);   (* one-shot subscriptions, oldest first *)
  promises : list Promise;
  jobs : list Job;                 (* microtask queue, oldest first *)
  console : list LogEntry;
  unhandled : list nat             (* promises whose reaction threw *)
}.

Definition World_new (verbose : bool) : World :=
  {| heap := []; doc := DocContext_new verbose; subs := []; promises := [];
     jobs := []; console := []; unhandled := [] |}.

Section WorldSetters.
Variable w : World.

Definition set_heap (h : Heap) : World :=
  mkWorld h (doc w) (subs w) (promises w) (jobs w) (console w) (unhandled w).
Definition set_doc (d : DocContext) : World :=
  mkWorld (heap w) d (subs w) (promises w) (jobs w) (console w) (unhandled w).
Definition set_subs (l : list (string * Waiter)) : World :=
  mkWorld (heap w) (doc w) l (promises w) (jobs w) (console w) (unhandled w).
Definition set_promises (l : list Promise) : World :=
  mkWorld (heap w) (doc w) (subs w) l (jobs w) (console w) (unhandled w).
Definition set_jobs (l : list Job) : World :=
  mkWorld (heap w) (doc w) (subs w) (promises w) l (console w) (unhandled w).
Definition set_console (l : list LogEntry) : World :=
  mkWorld (heap w) (doc w) (subs w) (promises w) (jobs w) l (unhandled w).
Definition set_unhandled (l : list nat) : World :=
  mkWorld (heap w) (doc w) (subs w) (promises w) (jobs w) (console w) l.
End WorldSetters.

Definition log (e : LogEntry) (w : World) : World :=
  set_console w (console w ++ [e]).

(** ** Promises and the microtask queue *)

(** [new Promise(executor)]: a fresh pending promise; its index stands for
    its [resolve] function too. *)
Definition new_promise (w : World) : nat * World :=
  (length (promises w), set_promises w (promises w ++ [mkPromise Pending None])).

Definition enqueue (j : Job) (w : World) : World :=
  set_jobs w (jobs w ++ [j]).

(** [resolve(v)]: only a pending promise changes; a registered reaction is
    queued as a microtask. *)
Definition resolve (p : nat) (v : jsval) (w : World) : World :=
  match promises w !! p with
  | Some (mkPromise Pending t) =>
      let w1 := set_promises w (<[p := mkPromise (Fulfilled v) t]> (promises w)) in
      match t with
      | Some child => enqueue (mkJob p v child) w1
      | None => w1
      end
  | _ => w
  end.

(** An exception thrown inside the executor rejects the promise.  The only
    reaction is a fulfilment handler, so the rejection passes on to the
    promise [then] derived, where nothing handles it. *)
Definition reject (p : nat) (w : World) : World :=
  match promises w !! p with
  | Some (mkPromise Pending t) =>
      let w1 := set_promises w (<[p := mkPromise Rejected t]> (promises w)) in
      match t with
      | Some _ => set_unhandled w1 (unhandled w1 ++ [p])
      | None => w1
      end
  | _ => w
  end.

(** [promise.then(function (cls) { cls.addChild(this); }.bind(this))] *)
Definition then_addChild (p : nat) (this : ref) (w : World) : World :=
  match promises w !! p with
  | Some (mkPromise Pending _) =>
      set_promises w (<[p := mkPromise Pending (Some this)]> (promises w))
  | Some (mkPromise (Fulfilled v) _) => enqueue (mkJob p v this) w
  | Some (mkPromise Rejected _) => set_unhandled w (unhandled w ++ [p])
  | None => w
  end.

(** CommentContext.prototype.addChild *)
Definition addChild (this child : ref) (h : Heap) : Heap :=
  alter (assign_parent (JRef this)) child (alter (push_child child) this h).

(** One queued reaction, [cls.addChild(this)].  When [cls] is not a
    [CommentContext] the call is a TypeError, which rejects the derived
    promise. *)
Definition run_job (w : World) (j : Job) : World :=
  match j_value j with
  | JRef cls => set_heap w (addChild cls (j_child j) (heap w))
  | _ => set_unhandled w (unhandled w ++ [j_promise j])
  end.

(** The microtask checkpoint that follows the running script: every queued
    reaction runs, oldest first.  No reaction queues another one. *)
Definition run_microtasks (w : World) : World :=
  fold_left run_job (jobs w) (set_jobs w []).

(** ** Event bus *)

(** Modelled from the spec: the event bus is the module [pubsub.js] required
    at the top of the file, a dependency whose code is not part of the
    repository.  A one-shot subscription is kept, in subscription order,
    until the first publication on exactly its topic. *)
Definition subscribeOnce (topic : string) (cb : Waiter) (w : World) : World :=
  set_subs w (subs w ++ [(topic, cb)]).

Definition on_topic (topic : string) (s : string * Waiter) : bool :=
  String.eqb (fst s) topic.

(** ** DocContext.prototype.getClass *)

Inductive WalkResult : Type :=
| WalkDone (ctx : jsval)            (* every part was found *)
| WalkMissing (tmp : list string)   (* a part is missing; [tmp] is the path so far *)
| WalkThrow.                        (* [ctx.getFirstChild] is not a function *)

(** [parts.every(function (part) { ... })] of [walkParts], with the
    variables [ctx] and [tmp] the callback updates. *)
Fixpoint every_part (h : Heap) (ctx : jsval) (tmp parts : list string)
  : WalkResult :=
  match parts with
  | [] => WalkDone ctx
  | part :: rest =>
      match ctx with
      | JRef r =>
          let ctx' := getFirstChild h r part in
          if truthy ctx' then every_part h ctx' (tmp ++ [part]) rest
          else WalkMissing (tmp ++ [part])
      | _ => WalkThrow
      end
  end.

Inductive Outcome : Type :=
| Returned (w : World)
| Threw (w : World).

Definition world_of (o : Outcome) : World :=
  match o with Returned w | Threw w => w end.

(** The inner function [walkParts(ctx, resolve)]; [nm] and [parts] are the
    variables of the enclosing [getClass] call. *)
Definition walkParts (nm : string) (parts : list string) (ctx : jsval)
    (resolve_p : nat) (w : World) : Outcome :=
  match every_part (heap w) ctx [nm] parts with
  | WalkDone v => Returned (resolve resolve_p v w)
  | WalkMissing tmp => Returned (log (LogWaitingFor (join_dot tmp)) w)
  | WalkThrow => Threw w
  end.

(** A subscriber called with the published object.  [publish] always
    delivers a [CommentContext], from which [walkParts] cannot throw (lemma
    [walkParts_ref_returns]). *)
Definition fire (ctx : ref) (w : World) (cb : Waiter) : World :=
  world_of (walkParts (w_name cb) (w_parts cb) (JRef ctx) (w_resolve cb) w).

(** Modelled from the spec: [pubsub.publish(topic, [ ctx ])] of the missing
    [pubsub.js] calls the current one-shot subscribers of the topic, in
    subscription order and before it returns, and drops them. *)
Definition publish (topic : string) (ctx : ref) (w : World) : World :=
  let hit := List.filter (on_topic topic) (subs w) in
  let rest := List.filter (fun s => negb (on_topic topic s)) (subs w) in
  fold_left (fire ctx) (map snd hit) (set_subs w rest).

(** [this.classes[name] || this.modules[name]] *)
Definition top_level (d : DocContext) (nm : string) : jsval :=
  let c := obj_get (classes d) nm in
  if truthy c then c else obj_get (modules d) nm.

Definition getClass (className : string) (w : World) : nat * World :=
  let parts0 := split_dot className in
  let nm := hd "" parts0 in          (* parts.shift() *)
  let parts := tl parts0 in
  let ctx := top_level (doc w) nm in
  let '(p, w1) := new_promise w in
  if truthy ctx then
    match walkParts nm parts ctx p w1 with
    | Returned w2 => (p, w2)
    | Threw w2 => (p, reject p w2)
    end
  else
    (p, subscribeOnce ("resolve:" +:+ className) (mkWaiter nm parts p) w1).

(** ** CommentContext.prototype.processTags *)

(** The callback of [this.tags.forEach].  [self] is the reference of the
    object under construction and [this] its fields so far. *)
Definition processTag (self : ref) (st : CommentContext * World) (tag : Tag)
  : CommentContext * World :=
  let '(this, w) := st in
  let ty := tag_type tag in
  if ty =? "class" then (with_isClass this true, w)
  else if ty =? "module" then (with_isModule this true, w)
  else if ty =? "function" then (with_isFunction this true, w)
  else if ty =? "constant" then (with_isConstant this true, w)
  else if ty =? "enum" then (with_isEnum this true, w)
  else if ty =? "ignore" then (with_isIgnored this true, w)
  else if ty =? "private" then (with_isPrivate this true, w)
  else if ty =? "name" then (with_name this (tag_string tag), w)
  else if ty =? "type" then (with_types this (types this ++ tag_types tag), w)
  else if ty =? "see" then (with_see this (Some tag), w)
  else if ty =? "default" then (with_value this (tag_string tag), w)
  else if ty =? "param" then (with_params this (params this ++ [tag]), w)
  else if ty =? "return" then (with_returns this (Some tag), w)
  else if ty =? "memberOf" then
    let '(p, w1) := getClass (tag_parent tag) w in
    (with_parentName this (tag_parent tag), then_addChild p self w1)
  else if ty =? "kind" then
    let k := tag_string tag in
    if k =? "class" then (with_isClass this true, w)
    else if k =? "function" then (with_isFunction this true, w)
    else if k =? "constant" then (with_isConstant this true, w)
    else if k =? "enum" then (with_isEnum this true, w)
    else (this, log (WarnUnrecognizedKind tag) w)
  else (this, log (WarnUnrecognizedTag tag) w).

Definition processTags (self : ref) (this : CommentContext) (w : World)
  : CommentContext * World :=
  fold_left (processTag self) (tags this) (this, w).

(** [new CommentContext(doc, comment)].  Until the constructor returns the
    new object is reachable from nowhere else, so its fields are carried
    beside the state and enter the heap at the end, under the reference
    fixed at the start. *)
Definition CommentContext_new (comment : Comment) (w : World)
  : ref * CommentContext * World :=
  let self := length (heap w) in
  let '(this, w1) := processTags self (CommentContext_fields comment) w in
  (self, this, set_heap w1 (heap w1 ++ [this])).

(** ** DocContext.prototype.processSource *)

Section DocSetters.
Variable d : DocContext.

Definition set_comments (l : list Comment) : DocContext :=
  mkDocContext (options_verbose d) l (classes d) (modules d) (functions d)
    (constants d) (misc d).
Definition set_classes (m : gmap string ref) : DocContext :=
  mkDocContext (options_verbose d) (comments d) m (modules d) (functions d)
    (constants d) (misc d).
Definition set_modules (m : gmap string ref) : DocContext :=
  mkDocContext (options_verbose d) (comments d) (classes d) m (functions d)
    (constants d) (misc d).
Definition set_functions (m : gmap string ref) : DocContext :=
  mkDocContext (options_verbose d) (comments d) (classes d) (modules d) m
    (constants d) (misc d).
Definition set_constants (m : gmap string ref) : DocContext :=
  mkDocContext (options_verbose d) (comments d) (classes d) (modules d)
    (functions d) m (misc d).
Definition set_misc (l : list ref) : DocContext :=
  mkDocContext (options_verbose d) (comments d) (classes d) (modules d)
    (functions d) (constants d) l.
End DocSetters.

(** [(ctx.parentName ? ctx.parentName + "." : "") + ctx.name] *)
Definition qualified_name (ctx : CommentContext) : string :=
  (match parentName ctx with
   | EmptyString => ""
   | p => p +:+ "."
   end) +:+ name ctx.

(** The callback of [this.comments.forEach]. *)
Definition ingest (w : World) (comment : Comment) : World :=
  let '(r, ctx, w1) := CommentContext_new comment w in
  let d := doc w1 in
  if isIgnored ctx then w1
  else if isClass ctx then
    if negb (obj_in (name ctx) (classes d)) then
      publish ("resolve:" +:+ qualified_name ctx) r
        (set_doc w1 (set_classes d (<[name ctx := r]> (classes d))))
    else w1
  else if isModule ctx then
    if negb (obj_in (name ctx) (modules d)) then
      publish ("resolve:" +:+ qualified_name ctx) r
        (set_doc w1 (set_modules d (<[name ctx := r]> (modules d))))
    else w1
  else if isFunction ctx then
    if negb (obj_in (name ctx) (functions d)) then
      set_doc w1 (set_functions d (<[name ctx := r]> (functions d)))
    else w1
  else if isConstant ctx || isEnum ctx then
    if negb (obj_in (name ctx) (constants d)) then
      set_doc w1 (set_constants d (<[name ctx := r]> (constants d)))
    else w1
  else
    let w2 := if options_verbose d then log (WarnUnrecognizedComment r) w1
              else w1 in
    set_doc w2 (set_misc d (misc d ++ [r])).

Definition processSource (w : World) : World :=
  fold_left ingest (comments (doc w)) w.

(** DocContext.prototype.addSource, after [dox.parseComments(src)] has
    produced the comments. *)
Definition addSource (parsed : list Comment) (w : World) : World :=
  set_doc w (set_comments (doc w) (comments (doc w) ++ parsed)).

(** A documentation build: one index, the comments of the sources, one call
    of [processSource], and the microtasks that follow it. *)
Definition build (verbose : bool) (cs : list Comment) : World :=
  run_microtasks (processSource (addSource cs (World_new verbose))).

(** * Specification vocabulary *)

(** ** Tag lists *)

(** The case labels of the outer [switch (tag.type)] and of the inner
    [switch (tag.string)] of a "kind" tag. *)
Definition recognized_tag_types : list string :=
  [ "class"; "module"; "function"; "constant"; "enum"; "ignore"; "private";
    "name"; "type"; "see"; "default"; "param"; "return"; "memberOf"; "kind" ].
Definition recognized_kinds : list string :=
  [ "class"; "function"; "constant"; "enum" ].

Definition unrecognized (t : Tag) : Prop :=
  tag_type t ∉ recognized_tag_types
  ∨ (tag_type t = "kind" ∧ tag_string t ∉ recognized_kinds).

Definition warning_for (t : Tag) : LogEntry :=
  if decide (tag_type t = "kind") then WarnUnrecognizedKind t
  else WarnUnrecognizedTag t.


(** The fields [processTag] leaves in [this]; they do not depend on the
    state (lemma [processTag_fields]). *)
Definition tag_fields (this : CommentContext) (tag : Tag) : CommentContext :=
  (processTag 0 (this, World_new false) tag).1.

(** The fields of the object [new CommentContext(doc, comment)] builds. *)
Definition interpret (comment : Comment) : CommentContext :=
  fold_left tag_fields (c_tags comment) (CommentContext_fields comment).

Definition is_tag (ty : string) (t : Tag) : Prop := tag_type t = ty.
Global Instance is_tag_dec ty t : Decision (is_tag ty t).
Proof. unfold is_tag. apply _. Defined.

(** ** Children and dotted names *)

(** No child of [this] carries the name [x]. *)
Definition no_child_named (h : Heap) (this : ref) (x : string) : Prop :=
  ∀ c e, c ∈ children_of h this → h !! c = Some e → name e ≠ x.

(** [c] is the earliest child of [r] that carries the name [n]. *)
Definition first_child_named (h : Heap) (r : ref) (n : string) (c : ref) : Prop :=
  ∃ l1 l2 e,
    children_of h r = l1 ++ c :: l2
    ∧ h !! c = Some e ∧ name e = n
    ∧ ∀ x ex, x ∈ l1 → h !! x = Some ex → name ex ≠ n.

(** Some segment of [parts] is missing on the walk that starts at [r]:
    either no child of [r] carries the first segment, or the earliest child
    that does lacks a later one. *)
Inductive missing_segment (h : Heap) : ref → list string → Prop :=
| missing_here r part rest :
    no_child_named h r part → missing_segment h r (part :: rest)
| missing_later r part rest c :
    first_child_named h r part c → missing_segment h c rest →
    missing_segment h r (part :: rest).

(** A single-segment name has no dot in it. *)
Fixpoint has_dot (s : string) : bool :=
  match s with
  | EmptyString => false
  | String c rest => Ascii.eqb c "."%char || has_dot rest
  end.

(** ** Normal forms of [getClass] and of a "memberOf" tag *)

(** The state [getClass] leaves, by the outcome of the lookup and of the
    walk. *)
Definition getClass_state (className : string) (w : World) : World :=
  let nm := hd "" (split_dot className) in
  let parts := tl (split_dot className) in
  let ctx := top_level (doc w) nm in
  let made st := set_promises w (promises w ++ [mkPromise st None]) in
  if truthy ctx then
    match every_part (heap w) ctx [nm] parts with
    | WalkDone v => made (Fulfilled v)
    | WalkMissing tmp => log (LogWaitingFor (join_dot tmp)) (made Pending)
    | WalkThrow => made Rejected
    end
  else subscribeOnce ("resolve:" +:+ className)
         (mkWaiter nm parts (length (promises w))) (made Pending).

(** The state a "memberOf" tag leaves: [getClass(tag.parent)] followed by
    [then] on the promise it returns, by the outcome of the lookup and of
    the walk (lemma [memberOf_unfold]). *)
Definition memberOf_state (className : string) (self : ref) (w : World) : World :=
  let nm := hd "" (split_dot className) in
  let parts := tl (split_dot className) in
  let ctx := top_level (doc w) nm in
  let p := length (promises w) in
  let made st t := set_promises w (promises w ++ [mkPromise st t]) in
  if truthy ctx then
    match every_part (heap w) ctx [nm] parts with
    | WalkDone v => enqueue (mkJob p v self) (made (Fulfilled v) None)
    | WalkMissing tmp =>
        log (LogWaitingFor (join_dot tmp)) (made Pending (Some self))
    | WalkThrow =>
        set_unhandled (made Rejected None) (unhandled w ++ [p])
    end
  else subscribeOnce ("resolve:" +:+ className) (mkWaiter nm parts p)
         (made Pending (Some self)).

(** The identifier of the promise [getClass] makes for the tag that follows
    the tags [pre] of a comment ingested in [w]: every "memberOf" tag makes
    one promise. *)
Definition promise_of_tag (w : World) (pre : list Tag) : nat :=
  length (promises w) + length (filter (is_tag "memberOf") pre).

(** ** The document index *)

(** What the callback of [processSource] does once the object is built:
    [r] is the new object, [ctx] its fields, [w1] the state the constructor
    left (lemma [ingest_unfold]). *)
Definition classify (r : ref) (ctx : CommentContext) (w1 : World) : World :=
  let d := doc w1 in
  if isIgnored ctx then w1
  else if isClass ctx then
    if negb (obj_in (name ctx) (classes d)) then
      publish ("resolve:" +:+ qualified_name ctx) r
        (set_doc w1 (set_classes d (<[name ctx := r]> (classes d))))
    else w1
  else if isModule ctx then
    if negb (obj_in (name ctx) (modules d)) then
      publish ("resolve:" +:+ qualified_name ctx) r
        (set_doc w1 (set_modules d (<[name ctx := r]> (modules d))))
    else w1
  else if isFunction ctx then
    if negb (obj_in (name ctx) (functions d)) then
      set_doc w1 (set_functions d (<[name ctx := r]> (functions d)))
    else w1
  else if isConstant ctx || isEnum ctx then
    if negb (obj_in (name ctx) (constants d)) then
      set_doc w1 (set_constants d (<[name ctx := r]> (constants d)))
    else w1
  else
    let w2 := if options_verbose d then log (WarnUnrecognizedComment r) w1
              else w1 in
    set_doc w2 (set_misc d (misc d ++ [r])).

(** The state the constructor leaves. *)
Definition constructed (comment : Comment) (w : World) : World :=
  (CommentContext_new comment w).2.

(** The state of a build over [all] once the comments [cs], a prefix of
    [all], have been through the callback of [processSource]. *)
Definition ingested (verbose : bool) (all cs : list Comment) : World :=
  fold_left ingest cs (addSource all (World_new verbose)).

(** The object [r] is held by one of the four maps or by [misc]. *)
Definition stored (d : DocContext) (r : ref) : Prop :=
  (∃ k, classes d !! k = Some r) ∨ (∃ k, modules d !! k = Some r)
  ∨ (∃ k, functions d !! k = Some r) ∨ (∃ k, constants d !! k = Some r)
  ∨ r ∈ misc d.

(** The four maps, and the one the kind flags of an object select. *)
Inductive Category : Type := Classes | Modules | Functions | Constants.

Definition category_map (cat : Category) (d : DocContext) : gmap string ref :=
  match cat with
  | Classes => classes d
  | Modules => modules d
  | Functions => functions d
  | Constants => constants d
  end.

Definition category_of (ctx : CommentContext) : option Category :=
  if isIgnored ctx then None
  else if isClass ctx then Some Classes
  else if isModule ctx then Some Modules
  else if isFunction ctx then Some Functions
  else if isConstant ctx || isEnum ctx then Some Constants
  else None.

(** ** Frames *)

(** The subscribers [publish] calls for a topic. *)
Definition subscribers (topic : string) (w : World) : list Waiter :=
  map snd (List.filter (on_topic topic) (subs w)).

(** [w'] differs from [w] by console output and by the settling of promises
    among [Q], whose reactions join the microtask queue. *)
Definition settles (Q : nat → Prop) (w w' : World) : Prop :=
  heap w' = heap w ∧ doc w' = doc w ∧ subs w' = subs w
  ∧ unhandled w' = unhandled w
  ∧ length (promises w') = length (promises w)
  ∧ (∀ q, ¬ Q q → promises w' !! q = promises w !! q)
  ∧ ∃ js, jobs w' = jobs w ++ js ∧ Forall (λ j, Q (j_promise j)) js.

(** [w'] continues [w] with new promises only: what it adds to the
    subscriptions, the microtask queue and the unhandled rejections belongs
    to promises made since [w]. *)
Definition extends (w w' : World) : Prop :=
  let fresh p := length (promises w) ≤ p < length (promises w') in
  heap w' = heap w ∧ doc w' = doc w
  ∧ (∃ ps, promises w' = promises w ++ ps)
  ∧ (∃ ss, subs w' = subs w ++ ss ∧ Forall (λ s, fresh (w_resolve s.2)) ss)
  ∧ (∃ js, jobs w' = jobs w ++ js ∧ Forall (λ j, fresh (j_promise j)) js)
  ∧ (∃ us, unhandled w' = unhandled w ++ us ∧ Forall fresh us).

(** Every promise the state mentions has been made. *)
Definition ids_allocated (w : World) : Prop :=
  let made p := p < length (promises w) in
  Forall (λ s, made (w_resolve s.2)) (subs w)
  ∧ Forall (λ j, made (j_promise j)) (jobs w)
  ∧ Forall made (unhandled w).

(** Two states with the same heap, promises, subscriptions, microtask
    queue and unhandled rejections. *)
Definition same_async (w0 w : World) : Prop :=
  heap w0 = heap w ∧ promises w0 = promises w ∧ subs w0 = subs w
  ∧ jobs w0 = jobs w ∧ unhandled w0 = unhandled w.

(** ** Resolutions that wait *)

(** What can happen next: one more comment goes through the callback of
    [processSource], the queued microtasks run, or a collaborator calls
    [getClass]. *)
Inductive step : World → World → Prop :=
| step_ingest w comment : step w (ingest w comment)
| step_microtasks w : step w (run_microtasks w)
| step_getClass w className : step w (getClass className w).2.

(** The promise [p] is pending and nothing is left that could settle it or
    that reports on it: no subscriber holds its [resolve], no reaction of
    it is queued, no rejection of it is recorded. *)
Definition abandoned (p : nat) (pr : Promise) (w : World) : Prop :=
  promises w !! p = Some pr ∧ p_state pr = Pending
  ∧ (∀ s, s ∈ subs w → w_resolve s.2 ≠ p)
  ∧ (∀ j, j ∈ jobs w → j_promise j ≠ p)
  ∧ p ∉ unhandled w.

(** The promise [p] is pending with [child] as its reaction, a subscriber
    on [topic] holds its [resolve], and every subscriber that does is on
    [topic] and has no segment left to walk. *)
Definition awaiting (p : nat) (child : ref) (topic : string) (w : World) : Prop :=
  promises w !! p = Some (mkPromise Pending (Some child))
  ∧ (∃ nm, (topic, mkWaiter nm [] p) ∈ subs w)
  ∧ (∀ s, s ∈ subs w → w_resolve s.2 = p → s.1 = topic ∧ w_parts s.2 = []).

(** No object has a parent back-reference. *)
Definition parents_unset (h : Heap) : Prop :=
  Forall (λ e, _parent e = JUndefined) h.

(** ** Sample data for the closed instances *)

Definition tag_of (ty : string) : Tag := mkTag ty "" [] "".
Definition tag_name (n : string) : Tag := mkTag "name" n [] "".
Definition tag_memberOf (p : string) : Tag := mkTag "memberOf" "" [] p.
Definition comment_of (ts : list Tag) (d : string) : Comment :=
  mkComment ts d "" "" "" false.

Definition sample_child (nm : string) : CommentContext :=
  with_name (CommentContext_fields (comment_of [] "")) nm.
Definition sample_heap : Heap :=
  [ with_children (sample_child "Foo") [1; 2]; sample_child "f"; sample_child "g" ].

(** A class [A] with two children named [B]. *)
Definition sample_world : World :=
  build false
    [ comment_of [tag_of "class"; tag_name "A"] "";
      comment_of [tag_of "function"; tag_name "B"; tag_memberOf "A"] "first";
      comment_of [tag_of "function"; tag_name "B"; tag_memberOf "A"] "second" ].

(** Two documented functions called [toString]. *)
Definition toString_comments : list Comment :=
  [ comment_of [tag_of "function"; tag_name "toString"] "first";
    comment_of [tag_of "function"; tag_name "toString"] "second" ].

(** A function documented twice, the second time as a member of [P]. *)
Definition duplicate_comments : list Comment :=
  [ comment_of [tag_of "class"; tag_name "P"] "";
    comment_of [tag_of "function"; tag_name "f"] "first" ].
Definition duplicate_comment : Comment :=
  comment_of [tag_of "function"; tag_name "f"; tag_memberOf "P"] "second".

(** A class and, after it, one of its members. *)
Definition parent_first_comments : list Comment :=
  [ comment_of [tag_of "class"; tag_name "P"] "";
    comment_of [tag_of "function"; tag_name "c"; tag_memberOf "P"] "" ].

(** A class [Outer] without members, and a comment that declares itself a
    member of [Outer.Inner.deep]. *)
Definition outer_world : World :=
  build false [ comment_of [tag_of "class"; tag_name "Outer"] "" ].
Definition deep_comment : Comment :=
  comment_of [tag_of "function"; tag_name "f"; tag_memberOf "Outer.Inner.deep"] "".


(** A member of a class called [toString], documented before the class. *)
Definition toString_parent_comments : list Comment :=
  [ comment_of [tag_of "function"; tag_name "f"; tag_memberOf "toString"] "";
    comment_of [tag_of "class"; tag_name "toString"] "" ].

(** * Further vocabulary *)

(** ** Child lookup *)

(** The value the lookups return when no child matches: [null] for an
    object without children, [undefined] otherwise. *)
Definition no_match (h : Heap) (this : ref) : jsval :=
  match children_of h this with
  | [] => JNull
  | _ => JUndefined
  end.

(** ** Tag lists *)

(** The tag sets the kind flag [flag]: by its own type, or as a "kind" tag
    with that string. *)
Definition sets_kind (flag : string) (t : Tag) : Prop :=
  tag_type t = flag ∨ (tag_type t = "kind" ∧ tag_string t = flag).
Global Instance sets_kind_dec flag t : Decision (sets_kind flag t).
Proof. unfold sets_kind. apply _. Defined.

(** ** The index after a build *)

Global Instance Category_eq_dec : EqDecision Category.
Proof. solve_decision. Defined.

(** [d] with [r] entered in the map [cat] under [k]. *)
Definition insert_in (cat : Category) (k : string) (r : ref) (d : DocContext)
  : DocContext :=
  match cat with
  | Classes => set_classes d (<[k := r]> (classes d))
  | Modules => set_modules d (<[k := r]> (modules d))
  | Functions => set_functions d (<[k := r]> (functions d))
  | Constants => set_constants d (<[k := r]> (constants d))
  end.

(** The object of [c] belongs to the map [cat] and carries the name [n]. *)
Definition claims (cat : Category) (n : string) (c : Comment) : bool :=
  bool_decide (category_of (interpret c) = Some cat)
  && String.eqb (name (interpret c)) n.

(** The object of [c] is not ignored and belongs to none of the maps. *)
Definition is_misc (c : Comment) : bool :=
  negb (isIgnored (interpret c))
  && bool_decide (category_of (interpret c) = None).

(** The position of the first element that satisfies [f]. *)
Fixpoint first_index {A} (f : A → bool) (l : list A) : option nat :=
  match l with
  | [] => None
  | x :: l' => if f x then Some 0 else S <$> first_index f l'
  end.

(** The positions, counted from [start], of the elements that satisfy
    [f]. *)
Fixpoint indices_from {A} (f : A → bool) (l : list A) (start : nat) : list nat :=
  match l with
  | [] => []
  | x :: l' => (if f x then [start] else []) ++ indices_from f l' (S start)
  end.

(** A place of the index: a key of one of the maps, or a position of
    [misc]. *)
Inductive Slot : Type :=
| InMap (cat : Category) (k : string)
| InMisc (i : nat).

Definition holds (d : DocContext) (s : Slot) (r : ref) : Prop :=
  match s with
  | InMap cat k => category_map cat d !! k = Some r
  | InMisc i => misc d !! i = Some r
  end.

(** ** Microtasks *)

Global Instance jsval_eq_dec : EqDecision jsval.
Proof. solve_decision. Defined.

(** The queued reaction will call [addChild] on the object [P]. *)
Definition attaches_to (P : ref) (j : Job) : Prop := j_value j = JRef P.
Global Instance attaches_to_dec P j : Decision (attaches_to P j).
Proof. unfold attaches_to. apply _. Defined.

(** A queue with two reactions for the object 0 and one for the object 1,
    over three objects. *)
Definition queue_world : World :=
  set_jobs (set_heap (World_new false)
              [sample_child "P"; sample_child "Q"; sample_child "c"])
    [mkJob 0 (JRef 0) 2; mkJob 1 (JRef 1) 2; mkJob 2 (JRef 0) 1].

(** ** Waiting resolutions *)

(** A comment that waits for a class [P], and a class [P] that declares
    itself a member of [Q]. *)
Definition waiting_world : World :=
  ingest (World_new false)
    (comment_of [tag_of "function"; tag_name "f"; tag_memberOf "P"] "").
Definition nested_class_comment : Comment :=
  comment_of [tag_of "class"; tag_name "P"; tag_memberOf "Q"] "".

(** ** Dotted parents within one build *)

(** No object has a child yet: the state of the heap throughout one call
    of [processSource], whose reactions only run afterwards. *)
Definition children_empty (h : Heap) : Prop :=
  Forall (λ e, _children e = []) h.

(** Every "memberOf" tag of the list names a dotted path. *)
Definition all_dotted (ts : list Tag) : Prop :=
  ∀ t, t ∈ ts → tag_type t = "memberOf" → has_dot (tag_parent t) = true.

(** Nothing in the state will attach the object [i]: no reaction queued
    for it, and every subscriber whose promise has [i] as its reaction
    still has a segment to walk. *)
Definition never_attaches (i : ref) (w : World) : Prop :=
  ids_allocated w
  ∧ children_empty (heap w)
  ∧ (∀ j, j ∈ jobs w → j_child j ≠ i)
  ∧ (∀ s pr, s ∈ subs w → promises w !! w_resolve s.2 = Some pr →
       p_then pr = Some i → w_parts s.2 ≠ []).

(** ** Console output *)

(** The warnings of [processTags], and the warning of [processSource]. *)
Definition is_tag_warning (e : LogEntry) : bool :=
  match e with
  | WarnUnrecognizedKind _ | WarnUnrecognizedTag _ => true
  | _ => false
  end.
Definition is_comment_warning (e : LogEntry) : bool :=
  match e with
  | WarnUnrecognizedComment _ => true
  | _ => false
  end.

Global Instance unrecognized_dec t : Decision (unrecognized t).
Proof. unfold unrecognized. apply _. Defined.

(** ** Walks of any depth *)

(** The walk from [r] along [parts] ends at [c], taking at every segment
    the earliest child with that name. *)
Inductive walks_to (h : Heap) : ref → list string → ref → Prop :=
| walks_nil r : walks_to h r [] r
| walks_cons r part rest c c' :
    first_child_named h r part c → walks_to h c rest c' →
    walks_to h r (part :: rest) c'.

(** The walk from [r] along [parts] finds the first [k] segments and misses
    the next one. *)
Inductive missing_at (h : Heap) : ref → list string → nat → Prop :=
| missing_at_here r part rest :
    no_child_named h r part → missing_at h r (part :: rest) 0
| missing_at_later r part rest c k :
    first_child_named h r part c → missing_at h c rest k →
    missing_at h r (part :: rest) (S k).

(** * Properties *)

(** Case analysis on membership in an explicit list. *)
Ltac elem_cases H :=
  repeat (apply elem_of_cons in H as [->|H]); try (by apply elem_of_nil in H).

(** ** Child lookup *)

Section ChildLookup.
Variables (h : Heap) (n : string).

Lemma pick_keeps prev current :
  named h n prev = true → pick h n prev current = prev.
Proof. intros H. unfold pick. by rewrite H. Qed.

Lemma fold_pick_keeps l prev :
  named h n prev = true → fold_left (pick h n) l prev = prev.
Proof.
  revert prev. induction l as [|c l IH]; intros prev H; simpl; [done|].
  rewrite pick_keeps by done. by apply IH.
Qed.

Lemma fold_pick_none l prev :
  named h n prev = false →
  Forall (λ c, named h n (JRef c) = false) l →
  fold_left (pick h n) l prev = match l with [] => prev | _ => JUndefined end.
Proof.
  intros Hp Hl. revert prev Hp. induction Hl as [|c l Hc Hl IH]; intros prev Hp.
  - done.
  - simpl. unfold pick at 2. rewrite Hp, Hc.
    rewrite IH by done. by destruct l.
Qed.

Lemma fold_pick_first l1 c l2 prev :
  named h n prev = false →
  Forall (λ x, named h n (JRef x) = false) l1 →
  named h n (JRef c) = true →
  fold_left (pick h n) (l1 ++ c :: l2) prev = JRef c.
Proof.
  intros Hp Hl Hc. rewrite fold_left_app. simpl.
  assert (named h n (fold_left (pick h n) l1 prev) = false) as Hacc.
  { rewrite fold_pick_none by done. by destruct l1. }
  unfold pick at 2. rewrite Hacc, Hc. by apply fold_pick_keeps.
Qed.

Lemma getLastChild_rev this :
  getLastChild h this n = fold_left (pick h n) (rev (children_of h this)) JNull.
Proof. unfold getLastChild. by rewrite <- fold_left_rev_right, rev_involutive. Qed.
End ChildLookup.

Lemma no_child_named_Forall h this x :
  no_child_named h this x →
  Forall (λ c, named h x (JRef c) = false) (children_of h this).
Proof.
  intros H. apply Forall_forall. intros c Hc. simpl.
  destruct (h !! c) as [e|] eqn:He; [|done].
  apply String.eqb_neq. by eapply H.
Qed.

Lemma getFirstChild_absent h this x :
  no_child_named h this x →
  getFirstChild h this x = JNull ∨ getFirstChild h this x = JUndefined.
Proof.
  intros H%no_child_named_Forall. unfold getFirstChild.
  rewrite fold_pick_none by done. destruct (children_of h this); eauto.
Qed.

(** C9: when no child named [x] exists, [getFirstChild(x)] and
    [getLastChild(x)] both return a none value, [null] for an object without
    children and [undefined] otherwise; the functions are total, so no error
    is involved. *)
Theorem getFirstChild_getLastChild_none (h : Heap) (this : ref) (x : string) :
  no_child_named h this x →
  let none := match children_of h this with [] => JNull | _ => JUndefined end in
  getFirstChild h this x = none ∧ getLastChild h this x = none
  ∧ truthy none = false.
Proof.
  intros H%no_child_named_Forall. simpl. split_and!.
  - unfold getFirstChild. by rewrite fold_pick_none.
  - rewrite getLastChild_rev, fold_pick_none; [|done|by apply Forall_rev].
    destruct (children_of h this) as [|c l]; [done|].
    simpl. by destruct (rev l).
  - by destruct (children_of h this).
Qed.

Lemma getFirstChild_getLastChild_none_witness :
  getFirstChild sample_heap 0 "x" = JUndefined
  ∧ getLastChild sample_heap 0 "x" = JUndefined
  ∧ truthy JUndefined = false.
Proof.
  apply (getFirstChild_getLastChild_none sample_heap 0 "x").
  intros c e Hc He. vm_compute in Hc.
  elem_cases Hc; vm_compute in He; injection He as <-; vm_compute; congruence.
Defined.

(** ** Tag interpretation *)

Global Arguments processTag : simpl never.
Global Arguments tag_fields : simpl never.
Global Arguments getClass : simpl never.
Global Arguments walkParts : simpl never.
Global Arguments publish : simpl never.
Global Arguments ingest : simpl never.
Global Arguments CommentContext_new : simpl never.

(** Decide every string test of a [switch] in turn. *)
Ltac switch_cases :=
  repeat match goal with
         | |- context [String.eqb ?a ?b] =>
             destruct (String.eqb_spec a b)
         end.

Lemma processTag_fields self this w tag :
  (processTag self (this, w) tag).1 = tag_fields this tag.
Proof.
  unfold tag_fields, processTag.
  destruct (getClass (tag_parent tag) w) as [p w1].
  destruct (getClass (tag_parent tag) (World_new false)) as [p' w1'].
  switch_cases; reflexivity.
Qed.

Lemma processTags_fields self ts this w :
  (fold_left (processTag self) ts (this, w)).1 = fold_left tag_fields ts this.
Proof.
  revert this w. induction ts as [|t ts IH]; intros this w; simpl; [done|].
  rewrite <- (processTag_fields self this w t).
  destruct (processTag self (this, w) t) as [this1 w1]. apply IH.
Qed.

Lemma tag_fields_tags this t : tags (tag_fields this t) = tags this.
Proof.
  unfold tag_fields, processTag.
  destruct (getClass (tag_parent t) (World_new false)) as [p' w1'].
  switch_cases; reflexivity.
Qed.

Lemma fold_tag_fields_tags ts this : tags (fold_left tag_fields ts this) = tags this.
Proof.
  revert this. induction ts as [|t ts IH]; intros this; simpl; [done|].
  by rewrite IH, tag_fields_tags.
Qed.

Lemma CommentContext_new_fields comment w :
  (CommentContext_new comment w).1 = (length (heap w), interpret comment).
Proof.
  unfold CommentContext_new, processTags, interpret. simpl.
  rewrite <- (processTags_fields (length (heap w)) _ _ w).
  by destruct (fold_left _ _ _).
Qed.

Lemma tag_fields_name this t :
  name (tag_fields this t) =
    if decide (is_tag "name" t) then tag_string t else name this.
Proof.
  unfold tag_fields, processTag, is_tag.
  destruct (getClass (tag_parent t) (World_new false)) as [p' w1'].
  switch_cases; case_decide; try reflexivity; congruence.
Qed.

Lemma tag_fields_types this t :
  types (tag_fields this t) =
    if decide (is_tag "type" t) then types this ++ tag_types t else types this.
Proof.
  unfold tag_fields, processTag, is_tag.
  destruct (getClass (tag_parent t) (World_new false)) as [p' w1'].
  switch_cases; case_decide; try reflexivity; congruence.
Qed.

Lemma fold_tag_fields_name ts this :
  name (fold_left tag_fields ts this) =
    default (name this) (last (tag_string <$> filter (is_tag "name") ts)).
Proof.
  revert this. induction ts as [|t ts IH]; intros this; simpl; [done|].
  rewrite IH, tag_fields_name, filter_cons.
  case_decide; [|done]. rewrite fmap_cons.
  generalize (tag_string <$> filter (is_tag "name") ts). intros [|x l]; [done|].
  change (last (tag_string t :: x :: l)) with (last (x :: l)).
  destruct (last (x :: l)) eqn:E; [done|]. by apply last_None in E.
Qed.

Lemma fold_tag_fields_types ts this :
  types (fold_left tag_fields ts this) =
    types this ++ concat (tag_types <$> filter (is_tag "type") ts).
Proof.
  revert this. induction ts as [|t ts IH]; intros this; simpl.
  - by rewrite app_nil_r.
  - rewrite IH, tag_fields_types, filter_cons.
    case_decide; [|done]. rewrite fmap_cons. simpl. by rewrite app_assoc.
Qed.

(** C7: in the object built from a comment, [name] is the string of the
    last "name" tag (the empty string when there is none) and [types] is
    the concatenation, in tag order, of the type lists of all "type" tags. *)
Theorem repeated_name_last_wins_types_concatenate (comment : Comment) (w : World) :
  let this := (CommentContext_new comment w).1.2 in
  name this =
    default "" (last (tag_string <$> filter (is_tag "name") (c_tags comment)))
  ∧ types this =
    concat (tag_types <$> filter (is_tag "type") (c_tags comment)).
Proof.
  rewrite CommentContext_new_fields. simpl. unfold interpret.
  by rewrite fold_tag_fields_name, fold_tag_fields_types.
Qed.

Lemma processTag_unrecognized self this w tag :
  unrecognized tag →
  processTag self (this, w) tag = (this, log (warning_for tag) w).
Proof.
  unfold unrecognized, recognized_tag_types, recognized_kinds, warning_for,
    processTag.
  intros [Hty|[Hty Hk]].
  - case_decide as Hkind; [rewrite Hkind in Hty; set_solver|].
    destruct (getClass (tag_parent tag) w) as [p w1].
    switch_cases; try reflexivity;
      match goal with H : tag_type tag = _ |- _ => rewrite H in Hty end;
      exfalso; apply Hty; repeat constructor.
  - rewrite decide_True by done. rewrite Hty. simpl.
    switch_cases; try reflexivity;
      match goal with H : tag_string tag = _ |- _ => rewrite H in Hk end;
      exfalso; apply Hk; repeat constructor.
Qed.




(** ** Dotted names *)

Lemma split_dot_single s : has_dot s = false → split_dot s = [s].
Proof.
  unfold split_dot. induction s as [|c s IH]; simpl; [done|].
  intros [Hc Hs]%orb_false_elim. rewrite Hc, IH by done. done.
Qed.

Lemma split_dot_app a b :
  has_dot a = false → split_dot (a +:+ "." +:+ b) = a :: split_dot b.
Proof.
  unfold split_dot. induction a as [|c a IH]; simpl; [done|].
  intros [Hc Ha]%orb_false_elim. rewrite Hc. simpl in IH. by rewrite IH.
Qed.

(** ** What [getClass] does to the state *)

Lemma insert_app_last {A} (l : list A) (x y : A) :
  <[length l := y]> (l ++ [x]) = l ++ [y].
Proof. induction l as [|a l IH]; simpl; [done|]. by rewrite IH. Qed.

Lemma lookup_app_last {A} (l : list A) (x : A) : (l ++ [x]) !! length l = Some x.
Proof. by rewrite lookup_app_r, Nat.sub_diag. Qed.

Lemma getClass_unfold className w :
  getClass className w = (length (promises w), getClass_state className w).
Proof.
  unfold getClass, getClass_state, new_promise, walkParts.
  destruct (truthy _); [|done]. simpl.
  destruct (every_part _ _ _ _); simpl; try done.
  - unfold resolve. simpl. rewrite lookup_app_last.
    unfold set_promises. simpl. by rewrite insert_app_last.
  - unfold reject. simpl. rewrite lookup_app_last.
    unfold set_promises. simpl. by rewrite insert_app_last.
Qed.

Lemma first_child_named_get h r n c :
  first_child_named h r n c → getFirstChild h r n = JRef c.
Proof.
  intros (l1 & l2 & e & Hch & He & Hn & Hl1). unfold getFirstChild.
  rewrite Hch. apply fold_pick_first; [done| |].
  - apply Forall_forall. intros x Hx. simpl.
    destruct (h !! x) as [ex|] eqn:Hex; [|done].
    apply String.eqb_neq. by eapply Hl1.
  - simpl. rewrite He. by apply String.eqb_eq.
Qed.

(** C5: when [A] is a known top-level class or module with at least one
    child named [B], [getClass("A.B")] returns at once a promise fulfilled
    with the earliest child of [A] named [B], and changes nothing else. *)
Theorem getClass_dotted_earliest_child (w : World) (A B : string) (a b : ref) :
  has_dot A = false → has_dot B = false →
  top_level (doc w) A = JRef a →
  first_child_named (heap w) a B b →
  let '(p, w') := getClass (A +:+ "." +:+ B) w in
  p = length (promises w)
  ∧ promises w' = promises w ++ [mkPromise (Fulfilled (JRef b)) None]
  ∧ heap w' = heap w ∧ doc w' = doc w ∧ subs w' = subs w
  ∧ jobs w' = jobs w ∧ console w' = console w ∧ unhandled w' = unhandled w.
Proof.
  intros HA HB Htop Hfirst. rewrite getClass_unfold. unfold getClass_state.
  rewrite split_dot_app, split_dot_single by done. simpl.
  rewrite Htop. simpl. rewrite (first_child_named_get _ _ _ _ Hfirst). simpl.
  done.
Qed.

Lemma getClass_dotted_earliest_child_witness :
  let '(p, w') := getClass ("A" +:+ "." +:+ "B") sample_world in
  p = length (promises sample_world)
  ∧ promises w' = promises sample_world ++ [mkPromise (Fulfilled (JRef 1)) None]
  ∧ heap w' = heap sample_world ∧ doc w' = doc sample_world
  ∧ subs w' = subs sample_world ∧ jobs w' = jobs sample_world
  ∧ console w' = console sample_world ∧ unhandled w' = unhandled sample_world.
Proof.
  apply (getClass_dotted_earliest_child sample_world "A" "B" 0 1);
    [reflexivity|reflexivity|vm_compute; reflexivity|].
  exists [], [2], (interpret (comment_of [tag_of "function"; tag_name "B"; tag_memberOf "A"] "first")).
  split_and!; [vm_compute; reflexivity..|].
  intros x ex Hx. by apply elem_of_nil in Hx.
Defined.

(** ** Frames of the operations *)

Lemma settles_refl Q w : settles Q w w.
Proof.
  unfold settles. split_and!; try done. exists []. by rewrite app_nil_r.
Qed.

Lemma settles_trans Q w1 w2 w3 :
  settles Q w1 w2 → settles Q w2 w3 → settles Q w1 w3.
Proof.
  intros (Hh1 & Hd1 & Hs1 & Hu1 & Hl1 & Hp1 & js1 & Hj1 & HQ1)
         (Hh2 & Hd2 & Hs2 & Hu2 & Hl2 & Hp2 & js2 & Hj2 & HQ2).
  unfold settles. split_and!; try congruence.
  - intros q Hq. rewrite Hp2, Hp1 by done. done.
  - exists (js1 ++ js2). split.
    + by rewrite Hj2, Hj1, app_assoc.
    + by apply Forall_app.
Qed.

Lemma settles_weaken (Q Q' : nat → Prop) w w' :
  (∀ q, Q q → Q' q) → settles Q w w' → settles Q' w w'.
Proof.
  intros HQ (Hh & Hd & Hs & Hu & Hl & Hp & js & Hj & HQj).
  unfold settles. split_and!; try done.
  - intros q Hq. apply Hp. naive_solver.
  - exists js. split; [done|]. eapply Forall_impl; [done|]. naive_solver.
Qed.

Lemma log_settles Q e w : settles Q w (log e w).
Proof.
  unfold settles, log. simpl. split_and!; try done.
  exists []. by rewrite app_nil_r.
Qed.

Lemma resolve_settles p v w : settles (λ q, q = p) w (resolve p v w).
Proof.
  unfold resolve.
  destruct (promises w !! p) as [[[] t]|] eqn:Hp; try apply settles_refl.
  assert (∀ q, q ≠ p →
    <[p:=mkPromise (Fulfilled v) t]> (promises w) !! q = promises w !! q) as Hne.
  { intros q Hq. by rewrite list_lookup_insert_ne. }
  destruct t as [child|]; unfold settles; simpl;
    (split_and!; [done|done|done|done|by rewrite length_insert|done|]).
  - exists [mkJob p v child]. split; [done|]. by repeat constructor.
  - exists []. by rewrite app_nil_r.
Qed.

Lemma getFirstChild_value h r n :
  getFirstChild h r n = JNull ∨ getFirstChild h r n = JUndefined
  ∨ ∃ c, getFirstChild h r n = JRef c.
Proof.
  unfold getFirstChild.
  assert (∀ l acc,
    (acc = JNull ∨ acc = JUndefined ∨ ∃ c, acc = JRef c) →
    let v := fold_left (pick h n) l acc in
    v = JNull ∨ v = JUndefined ∨ ∃ c, v = JRef c) as Hfold.
  { induction l as [|c l IHl]; intros acc Hacc; simpl; [done|].
    apply IHl. unfold pick.
    destruct (named h n acc); [done|].
    destruct (named h n (JRef c)); eauto. }
  apply Hfold. by left.
Qed.

Lemma every_part_ref_no_throw h r tmp parts :
  every_part h (JRef r) tmp parts ≠ WalkThrow.
Proof.
  revert r tmp. induction parts as [|part parts IH]; intros r tmp; simpl; [done|].
  destruct (getFirstChild_value h r part) as [->|[->|[c ->]]]; simpl; [done..|].
  apply IH.
Qed.

(** [walkParts] started from a [CommentContext] returns normally. *)
Lemma walkParts_ref_returns nm parts r p w :
  ∃ w', walkParts nm parts (JRef r) p w = Returned w'.
Proof.
  unfold walkParts.
  destruct (every_part (heap w) (JRef r) [nm] parts) eqn:H; eauto.
  by apply every_part_ref_no_throw in H.
Qed.

Lemma fire_settles r w cb : settles (λ q, q = w_resolve cb) w (fire r w cb).
Proof.
  unfold fire, walkParts.
  destruct (every_part _ _ _ _); simpl.
  - apply resolve_settles.
  - apply log_settles.
  - apply settles_refl.
Qed.

Lemma fold_fire_settles r cbs w :
  settles (λ q, ∃ cb, cb ∈ cbs ∧ q = w_resolve cb) w (fold_left (fire r) cbs w).
Proof.
  revert w. induction cbs as [|cb cbs IH]; intros w; simpl.
  - apply settles_refl.
  - eapply settles_trans.
    + eapply settles_weaken; [|apply (fire_settles r w cb)].
      intros q ->. exists cb. split; [left|done].
    + eapply settles_weaken; [|apply IH].
      intros q (cb' & Hin & ->). exists cb'. split; [by right|done].
Qed.

Lemma publish_frame topic r w :
  let w' := publish topic r w in
  heap w' = heap w ∧ doc w' = doc w ∧ unhandled w' = unhandled w
  ∧ subs w' = List.filter (λ s, negb (on_topic topic s)) (subs w)
  ∧ length (promises w') = length (promises w)
  ∧ (∀ q, (∀ cb, cb ∈ subscribers topic w → q ≠ w_resolve cb) →
          promises w' !! q = promises w !! q)
  ∧ ∃ js, jobs w' = jobs w ++ js
          ∧ Forall (λ j, ∃ cb, cb ∈ subscribers topic w
                                ∧ j_promise j = w_resolve cb) js.
Proof.
  unfold publish.
  destruct (fold_fire_settles r (subscribers topic w)
              (set_subs w (List.filter (λ s, negb (on_topic topic s)) (subs w))))
    as (Hh & Hd & Hs & Hu & Hl & Hp & js & Hj & HQ).
  fold (subscribers topic w). simpl in *. split_and!; try done.
  - intros q Hq. apply Hp. intros (cb & Hin & ->). by eapply Hq.
  - by exists js.
Qed.

Lemma memberOf_unfold className self w :
  then_addChild (length (promises w)) self (getClass_state className w)
  = memberOf_state className self w.
Proof.
  unfold getClass_state, memberOf_state, then_addChild.
  destruct (truthy _).
  - destruct (every_part _ _ _ _); simpl; rewrite lookup_app_last; simpl;
      try done.
    unfold log, set_promises, set_console. simpl. by rewrite insert_app_last.
  - simpl. rewrite lookup_app_last.
    unfold subscribeOnce, set_promises, set_subs. simpl.
    by rewrite insert_app_last.
Qed.

Lemma processTag_memberOf self this w tag :
  tag_type tag = "memberOf" →
  processTag self (this, w) tag
  = (with_parentName this (tag_parent tag),
     memberOf_state (tag_parent tag) self w).
Proof.
  intros Hty. unfold processTag. rewrite Hty. simpl.
  by rewrite getClass_unfold, memberOf_unfold.
Qed.

Lemma processTag_other self this w tag :
  tag_type tag ≠ "memberOf" →
  (processTag self (this, w) tag).2 = w
  ∨ ∃ e, (processTag self (this, w) tag).2 = log e w.
Proof.
  intros Hty. unfold processTag.
  destruct (getClass (tag_parent tag) w) as [p w1].
  switch_cases; simpl; eauto; congruence.
Qed.

Lemma extends_refl w : extends w w.
Proof.
  unfold extends. split_and!; try done; exists []; by rewrite app_nil_r.
Qed.

Lemma extends_trans w1 w2 w3 : extends w1 w2 → extends w2 w3 → extends w1 w3.
Proof.
  intros (Hh1 & Hd1 & [ps1 Hp1] & (ss1 & Hs1 & Hss1) & (js1 & Hj1 & Hjs1)
          & (us1 & Hu1 & Hus1))
         (Hh2 & Hd2 & [ps2 Hp2] & (ss2 & Hs2 & Hss2) & (js2 & Hj2 & Hjs2)
          & (us2 & Hu2 & Hus2)).
  assert (length (promises w1) ≤ length (promises w2)) as Hle12
    by (rewrite Hp1, length_app; lia).
  assert (length (promises w2) ≤ length (promises w3)) as Hle23
    by (rewrite Hp2, length_app; lia).
  unfold extends. split_and!; try congruence.
  - exists (ps1 ++ ps2). by rewrite Hp2, Hp1, app_assoc.
  - exists (ss1 ++ ss2). split; [by rewrite Hs2, Hs1, app_assoc|].
    apply Forall_app. split; (eapply Forall_impl; [done|]); simpl; lia.
  - exists (js1 ++ js2). split; [by rewrite Hj2, Hj1, app_assoc|].
    apply Forall_app. split; (eapply Forall_impl; [done|]); simpl; lia.
  - exists (us1 ++ us2). split; [by rewrite Hu2, Hu1, app_assoc|].
    apply Forall_app. split; (eapply Forall_impl; [done|]); simpl; lia.
Qed.

Lemma log_extends e w : extends w (log e w).
Proof.
  unfold extends, log. simpl.
  split_and!; try done; exists []; by rewrite app_nil_r.
Qed.

Lemma memberOf_extends className self w :
  extends w (memberOf_state className self w).
Proof.
  unfold memberOf_state, extends.
  destruct (truthy _); [destruct (every_part _ _ _ _)|]; simpl;
    rewrite ?length_app; simpl;
    (split_and!; [done|done|by eexists|..]);
    try (exists []; by rewrite app_nil_r);
    (eexists [_]; split; [done|]; repeat constructor; simpl; lia).
Qed.

Lemma processTag_extends self this w tag :
  extends w (processTag self (this, w) tag).2.
Proof.
  destruct (decide (tag_type tag = "memberOf")) as [Hty|Hty].
  - rewrite processTag_memberOf by done. apply memberOf_extends.
  - destruct (processTag_other self this w tag Hty) as [->|[e ->]].
    + apply extends_refl.
    + apply log_extends.
Qed.

Lemma processTags_extends self ts this w :
  extends w (fold_left (processTag self) ts (this, w)).2.
Proof.
  revert this w. induction ts as [|t ts IH]; intros this w; simpl.
  - apply extends_refl.
  - pose proof (processTag_extends self this w t) as H1.
    destruct (processTag self (this, w) t) as [this1 w1].
    eapply extends_trans; [exact H1|apply IH].
Qed.

Lemma extends_ids_allocated w w' :
  extends w w' → ids_allocated w → ids_allocated w'.
Proof.
  intros (Hh & Hd & [ps Hp] & (ss & Hs & Hss) & (js & Hj & Hjs) & (us & Hu & Hus))
         (Hws & Hwj & Hwu).
  assert (length (promises w) ≤ length (promises w')) as Hle
    by (rewrite Hp, length_app; lia).
  unfold ids_allocated. rewrite Hs, Hj, Hu. split_and!; apply Forall_app; split;
    (eapply Forall_impl; [done|]); simpl; lia.
Qed.

(** ** Ingestion of one comment *)

Lemma constructed_extends comment w :
  ∃ w1, extends w w1
        ∧ constructed comment w = set_heap w1 (heap w ++ [interpret comment]).
Proof.
  unfold constructed, CommentContext_new, processTags, interpret.
  pose proof (processTags_extends (length (heap w)) (c_tags comment)
                (CommentContext_fields comment) w) as Hext.
  pose proof (processTags_fields (length (heap w)) (c_tags comment)
                (CommentContext_fields comment) w) as Hf.
  simpl. destruct (fold_left _ _ _) as [this w1]. simpl in *. subst this.
  exists w1. split; [done|]. by destruct Hext as [-> _].
Qed.

Lemma ingest_unfold w comment :
  ingest w comment
  = classify (length (heap w)) (interpret comment) (constructed comment w).
Proof.
  unfold ingest, classify, constructed.
  pose proof (CommentContext_new_fields comment w) as H.
  destruct (CommentContext_new comment w) as [[r ctx] w1].
  simpl in H. by injection H as -> ->.
Qed.

Lemma constructed_heap comment w :
  heap (constructed comment w) = heap w ++ [interpret comment].
Proof. by destruct (constructed_extends comment w) as (w1 & _ & ->). Qed.

Lemma constructed_doc comment w : doc (constructed comment w) = doc w.
Proof.
  destruct (constructed_extends comment w) as (w1 & Hext & ->). simpl.
  by destruct Hext as (_ & -> & _).
Qed.

Lemma classify_heap r ctx w : heap (classify r ctx w) = heap w.
Proof.
  unfold classify.
  repeat match goal with
         | |- context [if ?b then _ else _] => destruct b
         end;
    try done;
    by match goal with
       | |- heap (publish ?t ?r ?w) = _ =>
           destruct (publish_frame t r w) as (-> & _)
       end.
Qed.

Lemma ingest_heap w comment :
  heap (ingest w comment) = heap w ++ [interpret comment].
Proof. by rewrite ingest_unfold, classify_heap, constructed_heap. Qed.

Lemma fold_ingest_heap cs w :
  heap (fold_left ingest cs w) = heap w ++ (interpret <$> cs).
Proof.
  revert w. induction cs as [|c cs IH]; intros w; simpl.
  - by rewrite app_nil_r.
  - by rewrite IH, ingest_heap, <- app_assoc.
Qed.

Lemma classify_stored r ctx w r' :
  stored (doc (classify r ctx w)) r' →
  stored (doc w) r' ∨ (r' = r ∧ isIgnored ctx = false).
Proof.
  unfold classify.
  repeat match goal with
         | |- context [if ?b then _ else _] => destruct b eqn:?
         end;
    try (by left);
    repeat match goal with
       | |- context [doc (publish ?t ?r ?w)] =>
           destruct (publish_frame t r w) as (_ & -> & _)
       end;
    unfold stored; simpl;
    intros [[k Hk]|[[k Hk]|[[k Hk]|[[k Hk]|Hm]]]];
    try (apply lookup_insert_Some in Hk as [[_ <-]|[_ Hk]]);
    try (apply elem_of_app in Hm as [Hm|Hm%list_elem_of_singleton]);
    subst; eauto 10.
Qed.

Lemma ingest_stored w comment r :
  stored (doc (ingest w comment)) r →
  stored (doc w) r
  ∨ (r = length (heap w) ∧ isIgnored (interpret comment) = false).
Proof.
  rewrite ingest_unfold. intros H%classify_stored.
  by rewrite constructed_doc in H.
Qed.

Lemma fold_ingest_stored cs w r :
  stored (doc (fold_left ingest cs w)) r →
  stored (doc w) r
  ∨ ∃ i c, cs !! i = Some c ∧ r = length (heap w) + i
           ∧ isIgnored (interpret c) = false.
Proof.
  revert w. induction cs as [|c cs IH]; intros w; simpl; [by left|].
  intros [H|(i & c' & Hi & -> & Hc')]%IH.
  - apply ingest_stored in H as [H|[-> Hc]]; [by left|].
    right. exists 0, c. split_and!; [done|lia|done].
  - right. exists (S i), c'. split_and!; [done| |done].
    rewrite ingest_heap, length_app. simpl. lia.
Qed.

Lemma run_job_doc w j : doc (run_job w j) = doc w.
Proof. unfold run_job. by destruct (j_value j). Qed.

Lemma fold_run_job_doc js w : doc (fold_left run_job js w) = doc w.
Proof.
  revert w. induction js as [|j js IH]; intros w; simpl; [done|].
  by rewrite IH, run_job_doc.
Qed.

Lemma run_microtasks_doc w : doc (run_microtasks w) = doc w.
Proof. unfold run_microtasks. by rewrite fold_run_job_doc. Qed.

Lemma tag_fields_isIgnored this t :
  isIgnored (tag_fields this t) =
    if decide (is_tag "ignore" t) then true else isIgnored this.
Proof.
  unfold tag_fields, processTag, is_tag.
  destruct (getClass (tag_parent t) (World_new false)) as [p' w1'].
  switch_cases; case_decide; try reflexivity; congruence.
Qed.

Lemma fold_tag_fields_isIgnored ts this :
  isIgnored (fold_left tag_fields ts this) = true ↔
  isIgnored this = true ∨ ∃ t, t ∈ ts ∧ is_tag "ignore" t.
Proof.
  revert this. induction ts as [|t ts IH]; intros this; simpl.
  - split; [by left|]. intros [?|(t & Ht & _)]; [done|by apply elem_of_nil in Ht].
  - rewrite IH, tag_fields_isIgnored. case_decide as Ht.
    + split; [|by left]. intros _. right. exists t. split; [left|done].
    + split.
      * intros [?|(t' & Hin & Ht')]; [by left|]. right. exists t'.
        split; [by right|done].
      * intros [?|(t' & Hin & Ht')]; [by left|]. right. exists t'.
        split; [|done]. apply elem_of_cons in Hin as [->|Hin]; done.
Qed.

Lemma interpret_isIgnored comment :
  isIgnored (interpret comment) = true ↔
  ∃ t, t ∈ c_tags comment ∧ is_tag "ignore" t.
Proof.
  unfold interpret. rewrite fold_tag_fields_isIgnored. simpl.
  split; [by intros [?|?]|by right].
Qed.

Lemma build_doc verbose cs :
  doc (build verbose cs)
  = doc (fold_left ingest cs (addSource cs (World_new verbose))).
Proof. unfold build. by rewrite run_microtasks_doc. Qed.

(** ** First claim of a name *)

Lemma classify_lookup_mono cat r ctx w k x :
  category_map cat (doc w) !! k = Some x →
  category_map cat (doc (classify r ctx w)) !! k = Some x.
Proof.
  intros Hk. unfold classify.
  repeat match goal with
         | |- context [if ?b then _ else _] => destruct b eqn:?
         end;
    repeat match goal with
       | |- context [doc (publish ?t ?r ?w)] =>
           destruct (publish_frame t r w) as (_ & -> & _)
       end;
    try done;
    destruct cat; simpl; try done;
    (rewrite lookup_insert_ne; [done|]);
    intros <-;
    match goal with
    | H : negb (obj_in _ _) = true |- _ =>
        unfold obj_in in H; simpl in Hk; by rewrite Hk in H
    end.
Qed.

Lemma classify_claims cat r ctx w :
  category_of ctx = Some cat →
  obj_in (name ctx) (category_map cat (doc w)) = false →
  category_map cat (doc (classify r ctx w)) !! name ctx = Some r.
Proof.
  unfold category_of, classify. intros Hcat Hin.
  repeat match type of Hcat with
         | (if ?b then _ else _) = _ => destruct b eqn:?
         end;
    try done; injection Hcat as <-; simpl in Hin; rewrite Hin; simpl;
    repeat match goal with
       | |- context [doc (publish ?t ?r ?w)] =>
           destruct (publish_frame t r w) as (_ & -> & _)
       end;
    simpl; by rewrite lookup_insert_eq.
Qed.

(** A comment whose name is already claimed in its map leaves the state as
    the constructor left it. *)
Lemma classify_duplicate cat r ctx w :
  category_of ctx = Some cat →
  obj_in (name ctx) (category_map cat (doc w)) = true →
  classify r ctx w = w.
Proof.
  unfold category_of, classify. intros Hcat Hin.
  repeat match type of Hcat with
         | (if ?b then _ else _) = _ => destruct b eqn:?
         end;
    try done; injection Hcat as <-; simpl in Hin; by rewrite Hin.
Qed.

Lemma ingest_lookup_mono cat w comment k x :
  category_map cat (doc w) !! k = Some x →
  category_map cat (doc (ingest w comment)) !! k = Some x.
Proof.
  intros H. rewrite ingest_unfold. apply classify_lookup_mono.
  by rewrite constructed_doc.
Qed.

Lemma fold_ingest_lookup_mono cat cs w k x :
  category_map cat (doc w) !! k = Some x →
  category_map cat (doc (fold_left ingest cs w)) !! k = Some x.
Proof.
  revert w. induction cs as [|c cs IH]; intros w H; simpl; [done|].
  by apply IH, ingest_lookup_mono.
Qed.

(** First definition wins, for a name that is not a member of
    [Object.prototype]: the first comment to arrive for a free name of its
    category is the one the map holds from then on, with the fields of that
    comment. *)
Lemma first_claim_kept cat cs1 c cs2 w :
  category_of (interpret c) = Some cat →
  obj_in (name (interpret c))
    (category_map cat (doc (fold_left ingest cs1 w))) = false →
  let w' := fold_left ingest (cs1 ++ c :: cs2) w in
  let r := length (heap w) + length cs1 in
  category_map cat (doc w') !! name (interpret c) = Some r
  ∧ heap w' !! r = Some (interpret c).
Proof.
  intros Hcat Hfree. simpl. rewrite fold_left_app. simpl. split.
  - apply fold_ingest_lookup_mono. rewrite ingest_unfold.
    rewrite fold_ingest_heap, length_app, length_fmap.
    apply classify_claims; [done|]. by rewrite constructed_doc.
  - rewrite fold_ingest_heap, ingest_heap, fold_ingest_heap.
    rewrite <- !app_assoc. rewrite lookup_app_r by lia.
    rewrite lookup_app_r by (rewrite length_fmap; lia).
    rewrite length_fmap.
    by replace (length (heap w) + length cs1 - length (heap w) - length cs1)
      with 0 by lia.
Qed.

(** C3 fails for a name that [Object.prototype] defines: of two comments
    that document a function called [toString], neither is kept;
    [functions["toString"]] stays the inherited built-in and the first
    object is held nowhere. *)
Theorem first_toString_not_retained :
  let w := build false toString_comments in
  functions (doc w) !! "toString" = None
  ∧ obj_get (functions (doc w)) "toString" = JProto "toString"
  ∧ (∃ e, heap w !! 0 = Some e ∧ category_of e = Some Functions
          ∧ description e = "first")
  ∧ ¬ stored (doc w) 0.
Proof.
  assert (doc (build false toString_comments)
          = set_comments (DocContext_new false) toString_comments) as Hdoc
    by (vm_compute; reflexivity).
  simpl. rewrite Hdoc. split_and!; [done|done| |].
  - eexists. split; [vm_compute; reflexivity|]. done.
  - unfold stored. simpl.
    intros [[k Hk]|[[k Hk]|[[k Hk]|[[k Hk]|Hm]]]];
      try (by rewrite lookup_empty in Hk). by apply elem_of_nil in Hm.
Qed.

(** ** Attaching a child *)

(** The assignment [child._parent = this] is ignored. *)
Lemma assign_parent_ignored v e : assign_parent v e = e.
Proof. reflexivity. Qed.

Lemma addChild_unfold this child h :
  addChild this child h = alter (push_child child) this h.
Proof. unfold addChild. by apply list_alter_id. Qed.

Lemma addChild_length this child h : length (addChild this child h) = length h.
Proof. by rewrite addChild_unfold, length_alter. Qed.

Lemma addChild_children this child h x :
  children_of (addChild this child h) x =
    if decide (x = this ∧ this < length h) then children_of h x ++ [child]
    else children_of h x.
Proof.
  rewrite addChild_unfold. unfold children_of.
  destruct (decide (this = x)) as [->|Hne].
  - rewrite list_lookup_alter_eq.
    destruct (h !! x) as [e|] eqn:He; simpl.
    + apply lookup_lt_Some in He. by rewrite decide_True by (split; [done|lia]).
    + apply lookup_ge_None in He. rewrite decide_False; [done|]. intros [_ ?]. lia.
  - rewrite list_lookup_alter_ne by done.
    rewrite decide_False; [done|]. by intros [-> _].
Qed.

Lemma addChild_parent this child h x e :
  addChild this child h !! x = Some e →
  ∃ e0, h !! x = Some e0 ∧ _parent e = _parent e0.
Proof.
  rewrite addChild_unfold. destruct (decide (this = x)) as [->|Hne].
  - rewrite list_lookup_alter_eq. destruct (h !! x) as [e0|]; [|done].
    simpl. intros [= <-]. by exists e0.
  - rewrite list_lookup_alter_ne by done. eauto.
Qed.

Lemma run_job_length w j : length (heap (run_job w j)) = length (heap w).
Proof.
  unfold run_job. destruct (j_value j); simpl; try done. apply addChild_length.
Qed.

Lemma run_job_children_mono w j x c :
  c ∈ children_of (heap w) x → c ∈ children_of (heap (run_job w j)) x.
Proof.
  unfold run_job. destruct (j_value j); simpl; try done.
  rewrite addChild_children. case_decide; [|done].
  intros Hc. apply elem_of_app. by left.
Qed.

Lemma fold_run_job_length js w :
  length (heap (fold_left run_job js w)) = length (heap w).
Proof.
  revert w. induction js as [|j js IH]; intros w; simpl; [done|].
  by rewrite IH, run_job_length.
Qed.

Lemma fold_run_job_children_mono js w x c :
  c ∈ children_of (heap w) x →
  c ∈ children_of (heap (fold_left run_job js w)) x.
Proof.
  revert w. induction js as [|j js IH]; intros w H; simpl; [done|].
  by apply IH, run_job_children_mono.
Qed.

Lemma fold_run_job_attaches js w j P :
  j ∈ js → j_value j = JRef P → P < length (heap w) →
  j_child j ∈ children_of (heap (fold_left run_job js w)) P.
Proof.
  revert w. induction js as [|j' js IH]; intros w Hin Hv HP; simpl.
  - by apply elem_of_nil in Hin.
  - apply elem_of_cons in Hin as [<-|Hin].
    + apply fold_run_job_children_mono. unfold run_job. rewrite Hv. simpl.
      rewrite addChild_children, decide_True by done.
      apply elem_of_app. right. by left.
    + apply IH; [done|done|]. by rewrite run_job_length.
Qed.

(** After the microtasks every queued reaction on a [CommentContext] has
    attached its child. *)
Lemma run_microtasks_attaches w j P :
  j ∈ jobs w → j_value j = JRef P → P < length (heap w) →
  j_child j ∈ children_of (heap (run_microtasks w)) P.
Proof. intros. unfold run_microtasks. by apply fold_run_job_attaches. Qed.

(** ** A "memberOf" tag whose parent is known *)

Lemma memberOf_state_known pn self w P :
  has_dot pn = false → top_level (doc w) pn = JRef P →
  memberOf_state pn self w
  = enqueue (mkJob (length (promises w)) (JRef P) self)
      (set_promises w (promises w ++ [mkPromise (Fulfilled (JRef P)) None])).
Proof.
  intros Hdot Htop. unfold memberOf_state.
  rewrite split_dot_single by done. simpl. by rewrite Htop.
Qed.

Lemma extends_jobs w w' j : extends w w' → j ∈ jobs w → j ∈ jobs w'.
Proof.
  intros (_ & _ & _ & _ & (js & -> & _) & _) H. apply elem_of_app. by left.
Qed.

Lemma processTags_known_parent self ts this w t P :
  t ∈ ts → tag_type t = "memberOf" → has_dot (tag_parent t) = false →
  top_level (doc w) (tag_parent t) = JRef P →
  ∃ p, mkJob p (JRef P) self ∈ jobs (fold_left (processTag self) ts (this, w)).2.
Proof.
  revert this w. induction ts as [|t' ts IH]; intros this w Hin Hty Hdot Htop.
  - by apply elem_of_nil in Hin.
  - simpl. apply elem_of_cons in Hin as [<-|Hin].
    + rewrite processTag_memberOf by done.
      exists (length (promises w)).
      eapply extends_jobs; [apply processTags_extends|].
      rewrite (memberOf_state_known _ _ _ P) by done.
      simpl. apply elem_of_app. right. by left.
    + pose proof (processTag_extends self this w t') as Hext.
      destruct (processTag self (this, w) t') as [this1 w1]. simpl in Hext.
      apply IH; try done. by destruct Hext as (_ & -> & _).
Qed.

Lemma constructed_jobs comment w :
  jobs (constructed comment w)
  = jobs (fold_left (processTag (length (heap w))) (c_tags comment)
            (CommentContext_fields comment, w)).2.
Proof.
  unfold constructed, CommentContext_new, processTags. simpl.
  by destruct (fold_left _ _ _).
Qed.

Lemma classify_jobs r ctx w j : j ∈ jobs w → j ∈ jobs (classify r ctx w).
Proof.
  intros Hj. unfold classify.
  repeat match goal with
         | |- context [if ?b then _ else _] => destruct b
         end;
    try done;
    match goal with
    | |- _ ∈ jobs (publish ?t ?r ?w) =>
        destruct (publish_frame t r w) as (_ & _ & _ & _ & _ & _ & js & -> & _)
    end;
    apply elem_of_app; by left.
Qed.

Lemma ingest_known_parent w comment t P :
  t ∈ c_tags comment → tag_type t = "memberOf" →
  has_dot (tag_parent t) = false →
  top_level (doc w) (tag_parent t) = JRef P →
  ∃ p, mkJob p (JRef P) (length (heap w)) ∈ jobs (ingest w comment).
Proof.
  intros Hin Hty Hdot Htop.
  destruct (processTags_known_parent (length (heap w)) (c_tags comment)
              (CommentContext_fields comment) w t P) as [p Hp]; try done.
  exists p. rewrite ingest_unfold. apply classify_jobs.
  by rewrite constructed_jobs.
Qed.

(** ** Builds *)

Lemma build_unfold verbose all :
  build verbose all = run_microtasks (ingested verbose all all).
Proof. reflexivity. Qed.

Lemma ingested_app verbose all cs1 cs2 :
  ingested verbose all (cs1 ++ cs2)
  = fold_left ingest cs2 (ingested verbose all cs1).
Proof. unfold ingested. by rewrite fold_left_app. Qed.

Lemma ingested_heap verbose all cs :
  heap (ingested verbose all cs) = interpret <$> cs.
Proof. unfold ingested. by rewrite fold_ingest_heap. Qed.

Lemma ingested_heap_length verbose all cs :
  length (heap (ingested verbose all cs)) = length cs.
Proof. by rewrite ingested_heap, length_fmap. Qed.

Lemma ingested_stored verbose all cs r :
  stored (doc (ingested verbose all cs)) r → r < length cs.
Proof.
  unfold ingested. intros [H|(i & c & Hi & -> & _)]%fold_ingest_stored.
  - unfold stored in H. simpl in H.
    destruct H as [[k Hk]|[[k Hk]|[[k Hk]|[[k Hk]|Hm]]]];
      try (by rewrite lookup_empty in Hk). by apply elem_of_nil in Hm.
  - simpl. by apply lookup_lt_Some in Hi.
Qed.

Lemma obj_get_ref m k r : obj_get m k = JRef r → m !! k = Some r.
Proof.
  unfold obj_get. destruct (m !! k); [by intros [= ->]|].
  by destruct (inherited k).
Qed.

Lemma top_level_stored d nm r : top_level d nm = JRef r → stored d r.
Proof.
  unfold top_level, stored.
  destruct (truthy (obj_get (classes d) nm)); intros H%obj_get_ref; eauto.
Qed.

Lemma ingest_jobs_mono w comment j : j ∈ jobs w → j ∈ jobs (ingest w comment).
Proof.
  intros Hj. rewrite ingest_unfold. apply classify_jobs.
  destruct (constructed_extends comment w) as (w1 & Hext & ->). simpl.
  by eapply extends_jobs.
Qed.

Lemma fold_ingest_jobs_mono cs w j :
  j ∈ jobs w → j ∈ jobs (fold_left ingest cs w).
Proof.
  revert w. induction cs as [|c cs IH]; intros w Hj; simpl; [done|].
  by apply IH, ingest_jobs_mono.
Qed.

Lemma addChild_fields this child h x e :
  addChild this child h !! x = Some e →
  ∃ e0, h !! x = Some e0 ∧ e = with_children e0 (_children e).
Proof.
  rewrite addChild_unfold. destruct (decide (this = x)) as [->|Hne].
  - rewrite list_lookup_alter_eq. destruct (h !! x) as [e0|]; [|done].
    simpl. intros [= <-]. by exists e0.
  - rewrite list_lookup_alter_ne by done. intros He. exists e.
    split; [done|]. by destruct e.
Qed.

Lemma fold_run_job_fields js w x e :
  heap (fold_left run_job js w) !! x = Some e →
  ∃ e0, heap w !! x = Some e0 ∧ e = with_children e0 (_children e).
Proof.
  revert w e. induction js as [|j js IH]; intros w e He; simpl in He.
  - exists e. split; [done|]. by destruct e.
  - apply IH in He as (e1 & He1 & Heq).
    assert (∃ e0, heap w !! x = Some e0 ∧ e1 = with_children e0 (_children e1))
      as (e0 & He0 & Heq1).
    { revert He1. unfold run_job. destruct (j_value j); simpl;
        try (intros ?; exists e1; split; [done|by destruct e1]).
      apply addChild_fields. }
    exists e0. split; [done|]. rewrite Heq, Heq1. by destruct e0.
Qed.

(** The object of the [i]-th comment of a build: the fields the constructor
    gave it, with the children attached since. *)
Lemma build_object verbose cs i c :
  cs !! i = Some c →
  ∃ e, heap (build verbose cs) !! i = Some e
       ∧ e = with_children (interpret c) (_children e).
Proof.
  intros Hi. rewrite build_unfold. unfold run_microtasks.
  assert (i < length (heap (fold_left run_job (jobs (ingested verbose cs cs))
                              (set_jobs (ingested verbose cs cs) [])))) as Hlt.
  { rewrite fold_run_job_length. simpl. rewrite ingested_heap_length.
    by eapply lookup_lt_Some. }
  destruct (lookup_lt_is_Some_2 _ _ Hlt) as [e He]. exists e. split; [done|].
  apply fold_run_job_fields in He as (e0 & He0 & ->). simpl in He0.
  rewrite ingested_heap, list_lookup_fmap, Hi in He0. simpl in He0.
  by injection He0 as <-.
Qed.

(** C4: in a build over any comment sequence, the object made from a
    comment whose tags include "ignore" has its ignore flag set, is held by
    none of the four maps and is not in [misc], whatever its other tags
    are. *)
Theorem ignored_never_stored (verbose : bool) (cs : list Comment)
    (i : nat) (c : Comment) :
  cs !! i = Some c →
  (∃ t, t ∈ c_tags c ∧ tag_type t = "ignore") →
  (∃ e, heap (build verbose cs) !! i = Some e
        ∧ tags e = c_tags c ∧ isIgnored e = true)
  ∧ ¬ stored (doc (build verbose cs)) i.
Proof.
  intros Hi Hign%interpret_isIgnored. split.
  - destruct (build_object verbose cs i c Hi) as (e & He & Heq).
    exists e. split; [done|]. rewrite Heq. simpl. split; [|done].
    unfold interpret. by rewrite fold_tag_fields_tags.
  - rewrite build_doc.
    intros [H|(j & c' & Hj & Hij & Hc')]%fold_ingest_stored.
    + unfold stored in H. simpl in H.
      destruct H as [[k Hk]|[[k Hk]|[[k Hk]|[[k Hk]|Hm]]]];
        try (by rewrite lookup_empty in Hk). by apply elem_of_nil in Hm.
    + simpl in Hij. subst j. congruence.
Qed.

Lemma ignored_never_stored_witness :
  (∃ e, heap (build false [comment_of [tag_of "class"; tag_name "Foo"; tag_of "ignore"] ""]) !! 0 = Some e
        ∧ tags e = [tag_of "class"; tag_name "Foo"; tag_of "ignore"]
        ∧ isIgnored e = true)
  ∧ ¬ stored (doc (build false [comment_of [tag_of "class"; tag_name "Foo"; tag_of "ignore"] ""])) 0.
Proof.
  apply (ignored_never_stored false _ 0
           (comment_of [tag_of "class"; tag_name "Foo"; tag_of "ignore"] ""));
    [reflexivity|].
  exists (tag_of "ignore"). split; [|reflexivity].
  right. right. left.
Defined.

(** C10: when the name of a comment's object is already claimed in its
    map, the callback of [processSource] leaves the state exactly as the
    constructor left it, the index unchanged, and the object is held by no
    map in the finished build.  The tag side effects have run all the same:
    for a "memberOf" tag whose parent [P] is known, the reaction is queued,
    and in the finished build the dropped object is among the children of
    [P]. *)
Theorem duplicate_dropped_but_attached (verbose : bool)
    (cs : list Comment) (c : Comment) (cs2 : list Comment) (cat : Category) :
  let all := cs ++ c :: cs2 in
  let w := ingested verbose all cs in
  category_of (interpret c) = Some cat →
  obj_in (name (interpret c)) (category_map cat (doc w)) = true →
  ingest w c = constructed c w
  ∧ doc (ingest w c) = doc w
  ∧ ¬ stored (doc (build verbose all)) (length cs)
  ∧ ∀ t P,
      t ∈ c_tags c → tag_type t = "memberOf" →
      has_dot (tag_parent t) = false →
      top_level (doc w) (tag_parent t) = JRef P →
      (∃ p, mkJob p (JRef P) (length cs) ∈ jobs (ingest w c))
      ∧ length cs ∈ children_of (heap (build verbose all)) P.
Proof.
  intros all w Hcat Hdup.
  assert (ingest w c = constructed c w) as Hing.
  { rewrite ingest_unfold. eapply classify_duplicate; [done|].
    by rewrite constructed_doc. }
  assert (ingested verbose all all = fold_left ingest cs2 (ingest w c)) as Hall.
  { unfold all at 2. by rewrite ingested_app. }
  split_and!; [done|by rewrite Hing, constructed_doc| |].
  - rewrite build_unfold, run_microtasks_doc, Hall.
    intros [H|(i & c' & _ & Hi & _)]%fold_ingest_stored.
    + rewrite Hing, constructed_doc in H.
      apply ingested_stored in H. lia.
    + rewrite ingest_heap, length_app in Hi. unfold w in Hi.
      rewrite ingested_heap_length in Hi. simpl in Hi. lia.
  - intros t P Hin Hty Hdot Htop.
    destruct (ingest_known_parent w c t P) as [p Hp]; try done.
    unfold w in Hp at 1. rewrite ingested_heap_length in Hp.
    split; [by exists p|].
    rewrite build_unfold, Hall.
    apply (run_microtasks_attaches _ (mkJob p (JRef P) (length cs)) P);
      [by apply fold_ingest_jobs_mono|done|].
    rewrite fold_ingest_heap, length_app, ingest_heap, length_app.
    unfold w. rewrite ingested_heap_length.
    apply top_level_stored, ingested_stored in Htop. lia.
Qed.

Lemma duplicate_dropped_but_attached_witness :
  let w := ingested false (duplicate_comments ++ [duplicate_comment])
             duplicate_comments in
  ingest w duplicate_comment = constructed duplicate_comment w
  ∧ doc (ingest w duplicate_comment) = doc w
  ∧ ¬ stored (doc (build false (duplicate_comments ++ [duplicate_comment]))) 2
  ∧ 2 ∈ children_of
          (heap (build false (duplicate_comments ++ [duplicate_comment]))) 0.
Proof.
  destruct (duplicate_dropped_but_attached false duplicate_comments
              duplicate_comment [] Functions) as (H1 & H2 & H3 & H4);
    [vm_compute; reflexivity|vm_compute; reflexivity|].
  split_and!; [exact H1|exact H2|exact H3|].
  apply (H4 (tag_memberOf "P") 0); [|reflexivity|reflexivity|vm_compute; reflexivity].
  right. right. left.
Defined.

(** ** The parent back-reference *)

(** C1 fails on its second half: for a class [P] followed by a function
    [C] tagged as member of [P], the finished build has [C] exactly once
    among the children of [P], but [C._parent] is still [undefined], because
    [_parent] was defined as a read-only property and the assignment in
    [addChild] is ignored. *)
Theorem parent_first_child_listed_parent_unset :
  let w := build false parent_first_comments in
  classes (doc w) !! "P" = Some 0
  ∧ children_of (heap w) 0 = [1]
  ∧ (∃ e, heap w !! 1 = Some e ∧ name e = "c" ∧ parentName e = "P"
          ∧ _parent e = JUndefined ∧ _parent e ≠ JRef 0).
Proof.
  simpl. split_and!.
  - vm_compute. reflexivity.
  - vm_compute. reflexivity.
  - eexists. split; [vm_compute; reflexivity|]. simpl. done.
Qed.

(** ** What the callback of [processSource] does after the constructor *)

Lemma same_async_refl w : same_async w w.
Proof. by unfold same_async. Qed.

(** Either nothing is published, or the new object has just claimed its
    name among the classes or the modules and is published under its
    qualified name. *)
Lemma classify_cases r ctx w :
  ∃ w0, same_async w0 w
    ∧ (classify r ctx w = w0
       ∨ (classify r ctx w = publish ("resolve:" +:+ qualified_name ctx) r w0
          ∧ (classes (doc w0) !! name ctx = Some r
             ∨ modules (doc w0) !! name ctx = Some r))).
Proof.
  unfold classify.
  repeat match goal with
         | |- context [if ?b then _ else _] => destruct b
         end;
    try (exists w; split; [apply same_async_refl|by left]);
    try (eexists; split; [|left; reflexivity]; by unfold same_async);
    (eexists; split;
       [|right; split; [reflexivity|simpl; rewrite lookup_insert_eq; eauto]]);
    by unfold same_async.
Qed.

Lemma constructed_unfold comment w :
  constructed comment w
  = set_heap (fold_left (processTag (length (heap w))) (c_tags comment)
                (CommentContext_fields comment, w)).2
      (heap w ++ [interpret comment]).
Proof.
  unfold constructed, CommentContext_new, processTags, interpret.
  pose proof (processTags_extends (length (heap w)) (c_tags comment)
                (CommentContext_fields comment) w) as Hext.
  pose proof (processTags_fields (length (heap w)) (c_tags comment)
                (CommentContext_fields comment) w) as Hf.
  simpl. destruct (fold_left _ _ _) as [this w1]. simpl in *. subst this.
  by destruct Hext as [-> _].
Qed.

(** ** Promise identifiers *)

Lemma elem_of_bool_filter {A} (f : A → bool) (l : list A) (x : A) :
  x ∈ List.filter f l ↔ x ∈ l ∧ f x = true.
Proof. rewrite !list_elem_of_In. apply filter_In. Qed.


Lemma publish_ids_allocated topic r w :
  ids_allocated w → ids_allocated (publish topic r w).
Proof.
  intros (Hs & Hj & Hu).
  destruct (publish_frame topic r w)
    as (_ & _ & Hu' & Hs' & Hl & _ & js & Hj' & Hjs).
  unfold ids_allocated. rewrite Hu', Hs', Hj', Hl. split_and!; [|apply Forall_app; split|];
    try done.
  - apply Forall_forall. intros s [Hin _]%elem_of_bool_filter.
    by eapply Forall_forall in Hs.
  - eapply Forall_impl; [exact Hjs|]. simpl.
    intros j (cb & Hcb & ->). unfold subscribers in Hcb.
    apply list_elem_of_fmap in Hcb as (s & -> & [Hin _]%elem_of_bool_filter).
    by eapply Forall_forall in Hs.
Qed.

Lemma same_async_ids_allocated w0 w :
  same_async w0 w → ids_allocated w → ids_allocated w0.
Proof.
  intros (_ & Hp & Hs & Hj & Hu). unfold ids_allocated.
  by rewrite Hp, Hs, Hj, Hu.
Qed.





(** ** Abandoned promises stay abandoned *)

Lemma extends_abandoned p pr w w' :
  extends w w' → abandoned p pr w → abandoned p pr w'.
Proof.
  intros (_ & _ & [ps Hp] & (ss & Hs & Hss) & (js & Hj & Hjs) & (us & Hu & Hus))
         (Hpr & Hst & Hsub & Hjob & Hun).
  assert (p < length (promises w)) as Hlt by by eapply lookup_lt_Some.
  unfold abandoned. rewrite Hp, Hs, Hj, Hu. split_and!; [|done|..].
  - by rewrite lookup_app_l.
  - intros s [?|Hin]%elem_of_app; [by apply Hsub|].
    eapply Forall_forall in Hss; [|done]. simpl in Hss. lia.
  - intros j [?|Hin]%elem_of_app; [by apply Hjob|].
    eapply Forall_forall in Hjs; [|done]. simpl in Hjs. lia.
  - intros [?|Hin]%elem_of_app; [done|].
    eapply Forall_forall in Hus; [|done]. simpl in Hus. lia.
Qed.

Lemma same_async_abandoned p pr w0 w :
  same_async w0 w → abandoned p pr w → abandoned p pr w0.
Proof.
  intros (_ & Hp & Hs & Hj & Hu). unfold abandoned.
  by rewrite Hp, Hs, Hj, Hu.
Qed.

Lemma subscribers_elem topic w cb :
  cb ∈ subscribers topic w → ∃ s, s ∈ subs w ∧ s.1 = topic ∧ s.2 = cb.
Proof.
  unfold subscribers.
  intros (s & -> & [Hin Hon]%elem_of_bool_filter)%list_elem_of_fmap.
  exists s. split_and!; [done| |done]. by apply String.eqb_eq.
Qed.

Lemma publish_abandoned topic r p pr w :
  abandoned p pr w → abandoned p pr (publish topic r w).
Proof.
  intros (Hpr & Hst & Hsub & Hjob & Hun).
  destruct (publish_frame topic r w)
    as (_ & _ & Hu' & Hs' & _ & Hp' & js & Hj' & Hjs).
  assert (∀ cb, cb ∈ subscribers topic w → p ≠ w_resolve cb) as Hcb.
  { intros cb (s & Hin & _ & <-)%subscribers_elem Heq.
    by eapply Hsub. }
  unfold abandoned. rewrite Hu', Hs', Hj', Hp' by done.
  split_and!; try done.
  - intros s [Hin _]%elem_of_bool_filter. by apply Hsub.
  - intros j [?|Hin]%elem_of_app; [by apply Hjob|].
    eapply Forall_forall in Hjs as (cb & Hin' & ->); [|done].
    intros Heq. by eapply Hcb.
Qed.

Lemma classify_abandoned r ctx p pr w :
  abandoned p pr w → abandoned p pr (classify r ctx w).
Proof.
  intros Hw. destruct (classify_cases r ctx w) as (w0 & Hsame & [->|[-> _]]).
  - by eapply same_async_abandoned.
  - apply publish_abandoned. by eapply same_async_abandoned.
Qed.

Lemma ingest_abandoned p pr w comment :
  abandoned p pr w → abandoned p pr (ingest w comment).
Proof.
  intros Hw. rewrite ingest_unfold. apply classify_abandoned.
  destruct (constructed_extends comment w) as (w1 & Hext & ->).
  by apply (extends_abandoned p pr w w1).
Qed.

Lemma fold_run_job_async js w :
  let w' := fold_left run_job js w in
  promises w' = promises w ∧ subs w' = subs w ∧ jobs w' = jobs w
  ∧ ∃ us, unhandled w' = unhandled w ++ us
          ∧ Forall (λ u, ∃ j, j ∈ js ∧ u = j_promise j) us.
Proof.
  revert w. induction js as [|j js IH]; intros w; simpl.
  - split_and!; try done. exists []. by rewrite app_nil_r.
  - destruct (IH (run_job w j)) as (Hp & Hs & Hj & us & Hu & Hus).
    rewrite Hp, Hs, Hj, Hu.
    assert (∀ us0 : list nat,
      Forall (λ u, ∃ j0, j0 ∈ js ∧ u = j_promise j0) us0 →
      Forall (λ u, ∃ j0, j0 ∈ j :: js ∧ u = j_promise j0) us0) as Hweak.
    { intros us0 H0. eapply Forall_impl; [exact H0|]. intros u (j0 & ? & ?).
      exists j0. split; [by right|done]. }
    unfold run_job. destruct (j_value j); simpl; split_and!; try done;
      try (exists us; split; [done|by apply Hweak]).
    all: exists (j_promise j :: us); split; [by rewrite <- app_assoc|];
      constructor; [exists j; split; [left|done]|by apply Hweak].
Qed.

Lemma run_microtasks_abandoned p pr w :
  abandoned p pr w → abandoned p pr (run_microtasks w).
Proof.
  intros (Hpr & Hst & Hsub & Hjob & Hun). unfold run_microtasks.
  destruct (fold_run_job_async (jobs w) (set_jobs w []))
    as (Hp & Hs & Hj & us & Hu & Hus).
  unfold abandoned. rewrite Hp, Hs, Hj, Hu. simpl.
  split_and!; try done.
  - intros j Hin. by apply elem_of_nil in Hin.
  - intros [?|Hin]%elem_of_app; [done|].
    rewrite Forall_forall in Hus. destruct (Hus _ Hin) as (j & Hj' & Heq).
    by eapply Hjob.
Qed.

Lemma getClass_extends className w : extends w (getClass className w).2.
Proof.
  rewrite getClass_unfold. simpl. unfold getClass_state, extends.
  destruct (truthy _); [destruct (every_part _ _ _ _)|]; simpl;
    rewrite ?length_app; simpl;
    (split_and!; [done|done|by eexists|..]);
    try (exists []; by rewrite app_nil_r);
    (eexists [_]; split; [done|]; repeat constructor; simpl; lia).
Qed.

Lemma step_abandoned p pr w w' :
  step w w' → abandoned p pr w → abandoned p pr w'.
Proof.
  intros [w0 c|w0|w0 cn] Hw.
  - by apply ingest_abandoned.
  - by apply run_microtasks_abandoned.
  - eapply extends_abandoned; [apply getClass_extends|done].
Qed.

Lemma steps_abandoned p pr w w' :
  rtc step w w' → abandoned p pr w → abandoned p pr w'.
Proof. induction 1; eauto using step_abandoned. Qed.

(** ** A walk that misses a segment *)

Lemma missing_segment_walk h r parts :
  missing_segment h r parts →
  ∀ tmp, ∃ tmp', every_part h (JRef r) tmp parts = WalkMissing tmp'.
Proof.
  induction 1 as [r part rest Hno|r part rest c Hfirst _ IH]; intros tmp; simpl.
  - destruct (getFirstChild_absent h r part Hno) as [-> | ->];
      simpl; eauto.
  - rewrite (first_child_named_get _ _ _ _ Hfirst). simpl. apply IH.
Qed.

Lemma memberOf_state_missing cn self w a :
  top_level (doc w) (hd "" (split_dot cn)) = JRef a →
  missing_segment (heap w) a (tl (split_dot cn)) →
  ∃ tmp, memberOf_state cn self w
         = log (LogWaitingFor (join_dot tmp))
             (set_promises w (promises w ++ [mkPromise Pending (Some self)])).
Proof.
  intros Htop Hmiss. unfold memberOf_state. rewrite Htop. simpl.
  destruct (missing_segment_walk _ _ _ Hmiss [hd "" (split_dot cn)])
    as [tmp ->].
  by exists tmp.
Qed.

Lemma memberOf_state_promises cn self w :
  length (promises (memberOf_state cn self w)) = S (length (promises w)).
Proof.
  unfold memberOf_state.
  destruct (truthy _); [destruct (every_part _ _ _ _)|]; simpl;
    rewrite length_app; simpl; lia.
Qed.

Lemma processTags_promises self ts this w :
  length (promises (fold_left (processTag self) ts (this, w)).2)
  = length (promises w) + length (filter (is_tag "memberOf") ts).
Proof.
  revert this w. induction ts as [|t ts IH]; intros this w; simpl; [lia|].
  rewrite filter_cons. destruct (decide (is_tag "memberOf" t)) as [Hty|Hty].
  - rewrite processTag_memberOf by done. rewrite IH, memberOf_state_promises.
    simpl. lia.
  - pose proof (processTag_other self this w t Hty) as Hw.
    destruct (processTag self (this, w) t) as [this1 w1]. simpl in Hw.
    rewrite IH. by destruct Hw as [->|[e ->]].
Qed.

(** The promise made for a "memberOf" tag whose walk misses a segment is
    abandoned as soon as the comment has been ingested. *)
Lemma ingest_missing_abandoned w c pre t post a :
  ids_allocated w →
  c_tags c = pre ++ t :: post → tag_type t = "memberOf" →
  top_level (doc w) (hd "" (split_dot (tag_parent t))) = JRef a →
  missing_segment (heap w) a (tl (split_dot (tag_parent t))) →
  abandoned (promise_of_tag w pre)
    (mkPromise Pending (Some (length (heap w)))) (ingest w c).
Proof.
  intros Hids Htags Hty Htop Hmiss.
  rewrite ingest_unfold. apply classify_abandoned.
  rewrite constructed_unfold, Htags, fold_left_app. simpl.
  set (self := length (heap w)).
  pose proof (processTags_extends self pre (CommentContext_fields c) w) as Hext.
  pose proof (processTags_promises self pre (CommentContext_fields c) w) as Hlen.
  destruct (fold_left (processTag self) pre (CommentContext_fields c, w))
    as [this1 w1]. simpl in Hext, Hlen.
  rewrite processTag_memberOf by done.
  assert (abandoned (promise_of_tag w pre) (mkPromise Pending (Some self))
            (memberOf_state (tag_parent t) self w1)) as Hab.
  { pose proof Hext as (Hh & Hd & _).
    destruct (memberOf_state_missing (tag_parent t) self w1 a) as [tmp ->].
    { by rewrite Hd. } { by rewrite Hh. }
    apply (extends_ids_allocated w w1) in Hids as (Hs & Hj & Hu); [|done].
    unfold promise_of_tag. rewrite <- Hlen.
    unfold abandoned. simpl. split_and!; [apply lookup_app_last|done|..].
    - intros s Hin Heq. eapply Forall_forall in Hs; [|done]. simpl in Hs. lia.
    - intros j Hin Heq. eapply Forall_forall in Hj; [|done]. simpl in Hj. lia.
    - intros Hin. eapply Forall_forall in Hu; [|done]. simpl in Hu. lia. }
  pose proof (processTags_extends self post
                (with_parentName this1 (tag_parent t))
                (memberOf_state (tag_parent t) self w1)) as Hext2.
  destruct (fold_left (processTag self) post _) as [this2 w2]. simpl in *.
  by apply (extends_abandoned _ _ _ w2) in Hab.
Qed.

(** ** Parent back-references stay unset *)

Lemma tag_fields_parent this t : _parent (tag_fields this t) = _parent this.
Proof.
  unfold tag_fields, processTag.
  destruct (getClass (tag_parent t) (World_new false)) as [p' w1'].
  switch_cases; reflexivity.
Qed.

Lemma interpret_parent comment : _parent (interpret comment) = JUndefined.
Proof.
  unfold interpret.
  assert (∀ ts this, _parent (fold_left tag_fields ts this) = _parent this) as H.
  { induction ts as [|t ts IH]; intros this; simpl; [done|].
    by rewrite IH, tag_fields_parent. }
  by rewrite H.
Qed.

Lemma addChild_parents_unset this child h :
  parents_unset h → parents_unset (addChild this child h).
Proof.
  unfold parents_unset. rewrite !Forall_lookup. intros Hh x e He.
  apply addChild_parent in He as (e0 & He0 & ->). by eapply Hh.
Qed.

Lemma step_parents_unset w w' :
  step w w' → parents_unset (heap w) → parents_unset (heap w').
Proof.
  intros [w0 c|w0|w0 cn] Hw.
  - rewrite ingest_heap. apply Forall_app. split; [done|].
    constructor; [apply interpret_parent|constructor].
  - unfold run_microtasks.
    assert (∀ js w1, parents_unset (heap w1) →
              parents_unset (heap (fold_left run_job js w1))) as Hfold.
    { induction js as [|j js IH]; intros w1 Hw1; simpl; [done|].
      apply IH. unfold run_job. destruct (j_value j); simpl; try done.
      by apply addChild_parents_unset. }
    by apply Hfold.
  - by destruct (getClass_extends cn w0) as (-> & _).
Qed.

Lemma step_heap_length w w' : step w w' → length (heap w) ≤ length (heap w').
Proof.
  intros [w0 c|w0|w0 cn].
  - rewrite ingest_heap, length_app. lia.
  - unfold run_microtasks. by rewrite fold_run_job_length.
  - by destruct (getClass_extends cn w0) as (-> & _).
Qed.

Lemma steps_parent_unset w w' child :
  rtc step w w' → parents_unset (heap w) → child < length (heap w) →
  ∃ e, heap w' !! child = Some e ∧ _parent e = JUndefined.
Proof.
  intros Hsteps. induction Hsteps as [w|w w1 w' Hstep _ IH]; intros Hun Hlt.
  - destruct (lookup_lt_is_Some_2 _ _ Hlt) as [e He]. exists e. split; [done|].
    unfold parents_unset in Hun. rewrite Forall_lookup in Hun. by eapply Hun.
  - apply IH; [by eapply step_parents_unset|].
    apply step_heap_length in Hstep. lia.
Qed.

(** C6: a comment is ingested whose "memberOf" tag names a dotted path with
    a known first segment and a segment missing on the walk.  Whatever
    happens afterwards, the promise made for that tag stays pending (it is
    neither fulfilled nor rejected), no subscriber is left that could
    resolve it, its reaction, the only caller of [addChild] for it, is never
    queued, no unhandled rejection is recorded for it, and the object built
    from the comment has no parent back-reference. *)
Theorem missing_segment_never_settles (w : World) (c : Comment)
    (pre : list Tag) (t : Tag) (post : list Tag) (a : ref) (w' : World) :
  ids_allocated w → parents_unset (heap w) →
  c_tags c = pre ++ t :: post → tag_type t = "memberOf" →
  top_level (doc w) (hd "" (split_dot (tag_parent t))) = JRef a →
  missing_segment (heap w) a (tl (split_dot (tag_parent t))) →
  rtc step (ingest w c) w' →
  let p := promise_of_tag w pre in
  let child := length (heap w) in
  promises w' !! p = Some (mkPromise Pending (Some child))
  ∧ (∀ s, s ∈ subs w' → w_resolve s.2 ≠ p)
  ∧ (∀ j, j ∈ jobs w' → j_promise j ≠ p)
  ∧ (p ∉ unhandled w')
  ∧ ∃ e, heap w' !! child = Some e ∧ _parent e = JUndefined.
Proof.
  intros Hids Hun Htags Hty Htop Hmiss Hsteps p child.
  pose proof (ingest_missing_abandoned w c pre t post a Hids Htags Hty Htop Hmiss)
    as Hab.
  apply (steps_abandoned _ _ _ _ Hsteps) in Hab as (Hp & _ & Hs & Hj & Hu).
  split_and!; try done.
  apply (steps_parent_unset _ _ _ Hsteps).
  - apply (step_parents_unset w); [constructor|done].
  - rewrite ingest_heap, length_app. simpl. lia.
Qed.

Lemma missing_segment_never_settles_witness :
  let w' := run_microtasks (ingest outer_world deep_comment) in
  promises w' !! 0 = Some (mkPromise Pending (Some 1))
  ∧ (∀ s, s ∈ subs w' → w_resolve s.2 ≠ 0)
  ∧ (∀ j, j ∈ jobs w' → j_promise j ≠ 0)
  ∧ (0 ∉ unhandled w')
  ∧ ∃ e, heap w' !! 1 = Some e ∧ _parent e = JUndefined.
Proof.
  apply (missing_segment_never_settles outer_world deep_comment
           [tag_of "function"; tag_name "f"] (tag_memberOf "Outer.Inner.deep")
           [] 0).
  - unfold ids_allocated. vm_compute. split_and!; constructor.
  - vm_compute. repeat constructor.
  - reflexivity.
  - reflexivity.
  - vm_compute. reflexivity.
  - apply missing_here. intros x e Hx. vm_compute in Hx.
    by apply elem_of_nil in Hx.
  - apply rtc_once. apply step_microtasks.
Defined.

(** ** Topics *)

Lemma append_inj_l s a b : s +:+ a = s +:+ b → a = b.
Proof. induction s as [|c s IH]; simpl; [done|]. intros [= H]. by apply IH. Qed.



(** ** A resolution that waits for its parent *)




Lemma extends_awaiting p child topic w w' :
  extends w w' → awaiting p child topic w → awaiting p child topic w'.
Proof.
  intros (_ & _ & [ps Hp] & (ss & Hs & Hss) & _) (Hpr & [nm Hnm] & Hall).
  assert (p < length (promises w)) as Hlt by by eapply lookup_lt_Some.
  unfold awaiting. rewrite Hp, Hs. split_and!.
  - by rewrite lookup_app_l.
  - exists nm. apply elem_of_app. by left.
  - intros s [?|Hin]%elem_of_app Heq; [by apply Hall|].
    eapply Forall_forall in Hss; [|done]. simpl in Hss. lia.
Qed.

Lemma same_async_awaiting p child topic w0 w :
  same_async w0 w → awaiting p child topic w → awaiting p child topic w0.
Proof.
  intros (_ & Hp & Hs & _). unfold awaiting. by rewrite Hp, Hs.
Qed.

(** A publication on another topic leaves the subscription in place. *)
Lemma publish_awaiting_other topic' r p child topic w :
  topic' ≠ topic →
  awaiting p child topic w → awaiting p child topic (publish topic' r w).
Proof.
  intros Hne (Hpr & [nm Hnm] & Hall).
  destruct (publish_frame topic' r w) as (_ & _ & _ & Hs' & _ & Hp' & _).
  unfold awaiting. rewrite Hs'. split_and!.
  - rewrite Hp'; [done|].
    intros cb (s & Hin & Htop & <-)%subscribers_elem Heq.
    destruct (Hall s Hin) as [Ht _]; congruence.
  - exists nm. apply elem_of_bool_filter. split; [done|].
    unfold on_topic. simpl. apply negb_true_iff, String.eqb_neq. congruence.
  - intros s [Hin _]%elem_of_bool_filter. by apply Hall.
Qed.












(** C2 fails for a parent whose name [Object.prototype] defines.  A
    function tagged as member of [toString] is ingested first, then a
    top-level class [toString] without a declared parent.  For the child,
    [classes["toString"]] is the inherited built-in, so its promise is
    fulfilled with that built-in at once and the reaction's call of
    [addChild] throws; for the parent, ["toString" in classes] is true, so
    the class is neither stored nor published.  In the finished build the
    child is among the children of no object. *)
Theorem child_before_toString_parent_not_attached :
  let w := build false toString_parent_comments in
  length (heap w) = 2
  ∧ (∃ c, heap w !! 0 = Some c ∧ isFunction c = true ∧ name c = "f"
          ∧ parentName c = "toString" ∧ _children c = [])
  ∧ (∃ p, heap w !! 1 = Some p ∧ isClass p = true ∧ isIgnored p = false
          ∧ name p = "toString" ∧ parentName p = "" ∧ _children p = [])
  ∧ classes (doc w) !! "toString" = None
  ∧ modules (doc w) !! "toString" = None
  ∧ promises w = [mkPromise (Fulfilled (JProto "toString")) None]
  ∧ subs w = [] ∧ jobs w = []
  ∧ unhandled w = [0].
Proof.
  simpl. split_and!; try (vm_compute; reflexivity);
    (eexists; split; [vm_compute; reflexivity|]; by split_and!).
Qed.

(** ** The other order, and the back-reference in every build *)

(** Parent first: when the parent named by a "memberOf" tag is known at the
    time the comment is ingested, the finished build has the object among
    the children of that parent. *)
Lemma parent_before_child_attached (verbose : bool)
    (pre : list Comment) (c : Comment) (post : list Comment) (t : Tag) (P : ref) :
  let all := pre ++ c :: post in
  t ∈ c_tags c → tag_type t = "memberOf" → has_dot (tag_parent t) = false →
  top_level (doc (ingested verbose all pre)) (tag_parent t) = JRef P →
  length pre ∈ children_of (heap (build verbose all)) P.
Proof.
  intros all Hin Hty Hdot Htop. set (w := ingested verbose all pre).
  assert (ingested verbose all all = fold_left ingest post (ingest w c)) as Hall.
  { unfold all at 2. by rewrite ingested_app. }
  destruct (ingest_known_parent w c t P) as [q Hq]; try done.
  unfold w in Hq at 1. rewrite ingested_heap_length in Hq.
  rewrite build_unfold, Hall.
  apply (run_microtasks_attaches _ (mkJob q (JRef P) (length pre)) P);
    [by apply fold_ingest_jobs_mono|done|].
  rewrite fold_ingest_heap, length_app, ingest_heap, length_app.
  unfold w. rewrite ingested_heap_length.
  apply top_level_stored, ingested_stored in Htop. lia.
Qed.

(** In no build does any object get a parent back-reference. *)
Lemma build_parents_unset (verbose : bool) (cs : list Comment) :
  parents_unset (heap (build verbose cs)).
Proof.
  rewrite build_unfold.
  apply (step_parents_unset (ingested verbose cs cs)); [constructor|].
  rewrite ingested_heap. unfold parents_unset. apply Forall_fmap, Forall_forall.
  intros c _. apply interpret_parent.
Qed.

(** * Further properties *)

Global Arguments named : simpl never.

(** ** Child lookup by name *)

Lemma fold_pick_filter h n l acc :
  named h n acc = false →
  fold_left (pick h n) l acc =
    match List.filter (λ c, named h n (JRef c)) l with
    | c :: _ => JRef c
    | [] => match l with [] => acc | _ => JUndefined end
    end.
Proof.
  revert acc. induction l as [|c l IH]; intros acc Hacc; simpl; [done|].
  unfold pick at 2. rewrite Hacc.
  destruct (named h n (JRef c)) eqn:Hc.
  - by apply fold_pick_keeps.
  - rewrite IH by done. destruct (List.filter _ l); [by destruct l|done].
Qed.

Lemma head_rev {A} (l : list A) : head (rev l) = last l.
Proof.
  induction l as [|x l _] using rev_ind; [done|].
  by rewrite rev_unit, last_snoc.
Qed.

(** X1: [getFirstChild(n)] is the first and [getLastChild(n)] the last
    element of [getChildren(n)]; when [getChildren(n)] is empty both return
    [null] for an object without children and [undefined] otherwise. *)
Theorem first_and_last_of_getChildren (h : Heap) (this : ref) (n : string) :
  getFirstChild h this n =
    match head (getChildren h this n) with
    | Some c => JRef c
    | None => no_match h this
    end
  ∧ getLastChild h this n =
    match last (getChildren h this n) with
    | Some c => JRef c
    | None => no_match h this
    end.
Proof.
  unfold getChildren, no_match. split.
  - unfold getFirstChild. rewrite fold_pick_filter by done.
    by destruct (List.filter _ _).
  - rewrite getLastChild_rev, fold_pick_filter by done.
    rewrite filter_rev, <- head_rev.
    destruct (rev (List.filter _ _)); simpl; [|done].
    destruct (children_of h this) as [|c l]; [done|].
    simpl. by destruct (rev l).
Qed.

(** ** Flags and metadata of the interpreted tags *)

Section FoldTags.
Context {A : Type} (f : CommentContext → A).

(** A field that tags of one kind overwrite: the last such tag wins. *)
Lemma fold_tag_fields_last (P : Tag → Prop) `{∀ t, Decision (P t)} (g : Tag → A) :
  (∀ this t, f (tag_fields this t) = if decide (P t) then g t else f this) →
  ∀ ts this,
    f (fold_left tag_fields ts this) = default (f this) (last (g <$> filter P ts)).
Proof.
  intros Hstep. induction ts as [|t ts IH]; intros this; simpl; [done|].
  rewrite IH, Hstep, filter_cons. case_decide; [|done]. rewrite fmap_cons.
  generalize (g <$> filter P ts). intros [|x l]; [done|].
  change (last (g t :: x :: l)) with (last (x :: l)).
  destruct (last (x :: l)) eqn:E; [done|]. by apply last_None in E.
Qed.
End FoldTags.

(** A flag that tags of one kind raise and no tag lowers. *)
Lemma fold_tag_fields_flag (f : CommentContext → bool) (P : Tag → Prop)
    `{∀ t, Decision (P t)} :
  (∀ this t, f (tag_fields this t) = if decide (P t) then true else f this) →
  ∀ ts this,
    f (fold_left tag_fields ts this) = true ↔ f this = true ∨ ∃ t, t ∈ ts ∧ P t.
Proof.
  intros Hstep. induction ts as [|t ts IH]; intros this; simpl.
  - split; [by left|]. intros [?|(t & Ht & _)]; [done|by apply elem_of_nil in Ht].
  - rewrite IH, Hstep. case_decide as Ht.
    + split; [|by left]. intros _. right. exists t. split; [left|done].
    + split.
      * intros [?|(t' & Hin & Ht')]; [by left|]. right. exists t'.
        split; [by right|done].
      * intros [?|(t' & Hin & Ht')]; [by left|]. right. exists t'.
        split; [|done]. apply elem_of_cons in Hin as [->|Hin]; done.
Qed.

(** Decide the tests of [processTag] and the matching [decide]. *)
Ltac tag_step :=
  intros this t; unfold tag_fields, processTag, sets_kind, is_tag;
  destruct (getClass (tag_parent t) (World_new false)) as [? ?];
  switch_cases; case_decide; try reflexivity; simpl in *;
  try congruence; try (exfalso; intuition congruence).

Ltac tag_step' :=
  intros this t; unfold tag_fields, processTag;
  destruct (getClass (tag_parent t) (World_new false)) as [? ?];
  switch_cases; reflexivity.

Lemma step_isClass this t :
  isClass (tag_fields this t) = if decide (sets_kind "class" t) then true else isClass this.
Proof. revert this t. tag_step. Qed.

Lemma step_isFunction this t :
  isFunction (tag_fields this t) =
    if decide (sets_kind "function" t) then true else isFunction this.
Proof. revert this t. tag_step. Qed.

Lemma step_isConstant this t :
  isConstant (tag_fields this t) =
    if decide (sets_kind "constant" t) then true else isConstant this.
Proof. revert this t. tag_step. Qed.

Lemma step_isEnum this t :
  isEnum (tag_fields this t) = if decide (sets_kind "enum" t) then true else isEnum this.
Proof. revert this t. tag_step. Qed.

Lemma step_isModule this t :
  isModule (tag_fields this t) = if decide (is_tag "module" t) then true else isModule this.
Proof. revert this t. tag_step. Qed.

Lemma step_isPrivate this t :
  isPrivate (tag_fields this t) =
    if decide (is_tag "private" t) then true else isPrivate this.
Proof. revert this t. tag_step. Qed.

(** X2: the flags of the object built from a comment are raised by tags and
    never lowered, so they depend on which tags occur and not on their
    order.  [isClass], [isFunction], [isConstant] and [isEnum] are set by a
    tag of that type or by a "kind" tag with that string; [isModule] only
    by a "module" tag (a "kind" tag cannot set it); [isIgnored] by an
    "ignore" tag; [isPrivate] by the comment's own flag or a "private"
    tag. *)
Theorem flags_set_by_some_tag (comment : Comment) (w : World) :
  let this := (CommentContext_new comment w).1.2 in
  let some (P : Tag → Prop) := ∃ t, t ∈ c_tags comment ∧ P t in
  (isClass this = true ↔ some (sets_kind "class"))
  ∧ (isModule this = true ↔ some (is_tag "module"))
  ∧ (isFunction this = true ↔ some (sets_kind "function"))
  ∧ (isConstant this = true ↔ some (sets_kind "constant"))
  ∧ (isEnum this = true ↔ some (sets_kind "enum"))
  ∧ (isIgnored this = true ↔ some (is_tag "ignore"))
  ∧ (isPrivate this = true ↔
       c_isPrivate comment = true ∨ some (is_tag "private")).
Proof.
  rewrite CommentContext_new_fields. simpl. unfold interpret.
  split_and!.
  - rewrite (fold_tag_fields_flag isClass _ step_isClass);
      simpl; (split; [by intros [?|?]|by right]).
  - rewrite (fold_tag_fields_flag isModule _ step_isModule);
      simpl; (split; [by intros [?|?]|by right]).
  - rewrite (fold_tag_fields_flag isFunction _ step_isFunction);
      simpl; (split; [by intros [?|?]|by right]).
  - rewrite (fold_tag_fields_flag isConstant _ step_isConstant);
      simpl; (split; [by intros [?|?]|by right]).
  - rewrite (fold_tag_fields_flag isEnum _ step_isEnum);
      simpl; (split; [by intros [?|?]|by right]).
  - rewrite (fold_tag_fields_flag isIgnored _ tag_fields_isIgnored);
      simpl; (split; [by intros [?|?]|by right]).
  - by rewrite (fold_tag_fields_flag isPrivate _ step_isPrivate).
Qed.

Lemma step_params this t :
  params (tag_fields this t) =
    if decide (is_tag "param" t) then params this ++ [t] else params this.
Proof. revert this t. tag_step. Qed.

Lemma step_see this t :
  see (tag_fields this t) = if decide (is_tag "see" t) then Some t else see this.
Proof. revert this t. tag_step. Qed.

Lemma step_returns this t :
  returns (tag_fields this t) =
    if decide (is_tag "return" t) then Some t else returns this.
Proof. revert this t. tag_step. Qed.

Lemma step_value this t :
  value (tag_fields this t) =
    if decide (is_tag "default" t) then tag_string t else value this.
Proof. revert this t. tag_step. Qed.

Lemma step_parentName this t :
  parentName (tag_fields this t) =
    if decide (is_tag "memberOf" t) then tag_parent t else parentName this.
Proof. revert this t. tag_step. Qed.

Lemma fold_tag_fields_params ts this :
  params (fold_left tag_fields ts this) = params this ++ filter (is_tag "param") ts.
Proof.
  revert this. induction ts as [|t ts IH]; intros this; simpl.
  - by rewrite app_nil_r.
  - rewrite IH, step_params, filter_cons. case_decide; [|done].
    by rewrite <- app_assoc.
Qed.

Lemma fold_tag_fields_keep {A} (f : CommentContext → A) :
  (∀ this t, f (tag_fields this t) = f this) →
  ∀ ts this, f (fold_left tag_fields ts this) = f this.
Proof.
  intros Hstep. induction ts as [|t ts IH]; intros this; simpl; [done|].
  by rewrite IH, Hstep.
Qed.

Lemma last_fmap_Some {A} (l : list A) : default None (last (Some <$> l)) = last l.
Proof.
  induction l as [|x l _] using rev_ind; [done|].
  rewrite fmap_app. simpl. by rewrite !last_snoc.
Qed.

(** X3: the metadata of the object built from a comment.  [params] holds
    every "param" tag in tag order; [see], [returns], [value] and
    [parentName] come from the last "see", "return", "default" and
    "memberOf" tag and keep their initial value when there is none; the
    text fields are the comment's, and the object starts without children
    and without parent. *)
Theorem metadata_from_tags (comment : Comment) (w : World) :
  let this := (CommentContext_new comment w).1.2 in
  let ts := c_tags comment in
  params this = filter (is_tag "param") ts
  ∧ see this = last (filter (is_tag "see") ts)
  ∧ returns this = last (filter (is_tag "return") ts)
  ∧ value this = default "" (last (tag_string <$> filter (is_tag "default") ts))
  ∧ parentName this =
      default "" (last (tag_parent <$> filter (is_tag "memberOf") ts))
  ∧ tags this = ts
  ∧ description this = c_description comment
  ∧ body this = c_body comment
  ∧ content this = c_content comment
  ∧ code this = c_code comment
  ∧ _children this = []
  ∧ _parent this = JUndefined.
Proof.
  rewrite CommentContext_new_fields. simpl. unfold interpret. split_and!.
  - by rewrite fold_tag_fields_params.
  - rewrite (fold_tag_fields_last see _ Some step_see). apply last_fmap_Some.
  - rewrite (fold_tag_fields_last returns _ Some step_returns).
    apply last_fmap_Some.
  - by rewrite (fold_tag_fields_last value _ tag_string step_value).
  - by rewrite (fold_tag_fields_last parentName _ tag_parent step_parentName).
  - by rewrite fold_tag_fields_tags.
  - rewrite (fold_tag_fields_keep description); [done|tag_step'].
  - rewrite (fold_tag_fields_keep body); [done|tag_step'].
  - rewrite (fold_tag_fields_keep content); [done|tag_step'].
  - rewrite (fold_tag_fields_keep code); [done|tag_step'].
  - rewrite (fold_tag_fields_keep _children); [done|tag_step'].
  - rewrite (fold_tag_fields_keep _parent); [done|tag_step'].
Qed.

(** ** The index, comment by comment *)

(** What the callback of [processSource] does to the index, whatever is
    published. *)
Lemma classify_doc r ctx w :
  doc (classify r ctx w) =
    match category_of ctx with
    | Some cat =>
        if obj_in (name ctx) (category_map cat (doc w)) then doc w
        else insert_in cat (name ctx) r (doc w)
    | None =>
        if isIgnored ctx then doc w
        else set_misc (doc w) (misc (doc w) ++ [r])
    end.
Proof.
  unfold classify, category_of.
  destruct (isIgnored ctx); [done|].
  destruct (isClass ctx); simpl.
  { destruct (obj_in _ _); simpl; [done|].
    by match goal with
       | |- doc (publish ?t ?r ?w) = _ =>
           destruct (publish_frame t r w) as (_ & -> & _)
       end. }
  destruct (isModule ctx); simpl.
  { destruct (obj_in _ _); simpl; [done|].
    by match goal with
       | |- doc (publish ?t ?r ?w) = _ =>
           destruct (publish_frame t r w) as (_ & -> & _)
       end. }
  destruct (isFunction ctx); simpl.
  { by destruct (obj_in _ _). }
  destruct (isConstant ctx || isEnum ctx); simpl.
  { by destruct (obj_in _ _). }
  by destruct (options_verbose (doc w)).
Qed.

Lemma ingest_doc w c :
  doc (ingest w c) =
    match category_of (interpret c) with
    | Some cat =>
        if obj_in (name (interpret c)) (category_map cat (doc w)) then doc w
        else insert_in cat (name (interpret c)) (length (heap w)) (doc w)
    | None =>
        if isIgnored (interpret c) then doc w
        else set_misc (doc w) (misc (doc w) ++ [length (heap w)])
    end.
Proof. by rewrite ingest_unfold, classify_doc, constructed_doc. Qed.

Lemma insert_in_lookup cat cat' k r d n :
  category_map cat (insert_in cat' k r d) !! n =
    if decide (cat = cat' ∧ k = n) then Some r else category_map cat d !! n.
Proof.
  destruct (decide (cat = cat' ∧ k = n)) as [[-> ->]|Hne].
  - destruct cat'; simpl; apply lookup_insert_eq.
  - destruct (decide (cat = cat')) as [->|Hc].
    + assert (k ≠ n) by (intros ->; by apply Hne).
      destruct cat'; simpl; by rewrite lookup_insert_ne.
    + destruct cat, cat'; simpl; done.
Qed.

Lemma insert_in_misc cat k r d : misc (insert_in cat k r d) = misc d.
Proof. by destruct cat. Qed.

Lemma insert_in_comments cat k r d : comments (insert_in cat k r d) = comments d.
Proof. by destruct cat. Qed.

Lemma claims_spec cat n c :
  claims cat n c = true ↔
  category_of (interpret c) = Some cat ∧ name (interpret c) = n.
Proof.
  unfold claims. rewrite andb_true_iff, bool_decide_eq_true.
  by rewrite String.eqb_eq.
Qed.

Lemma ingest_lookup cat w c n :
  category_map cat (doc (ingest w c)) !! n =
    match category_map cat (doc w) !! n with
    | Some x => Some x
    | None =>
        if inherited n then None
        else if claims cat n c then Some (length (heap w)) else None
    end.
Proof.
  destruct (category_map cat (doc w) !! n) as [x|] eqn:Hn.
  { by apply ingest_lookup_mono. }
  rewrite ingest_doc.
  destruct (claims cat n c) eqn:Hcl.
  - apply claims_spec in Hcl as [-> <-].
    unfold obj_in at 1. rewrite Hn.
    destruct (inherited (name (interpret c))); [done|].
    rewrite insert_in_lookup. by rewrite decide_True.
  - assert (¬ (category_of (interpret c) = Some cat ∧ name (interpret c) = n))
      as Hno by (rewrite <- claims_spec; congruence).
    assert ((if inherited n then None else None) = @None ref) as ->
      by by destruct (inherited n).
    destruct (category_of (interpret c)) as [cat'|].
    + destruct (obj_in _ _); [done|].
      rewrite insert_in_lookup, decide_False; [done|].
      intros [-> ?]. by apply Hno.
    + destruct (isIgnored (interpret c)); [done|]. by destruct cat.
Qed.

Lemma ingest_misc w c :
  misc (doc (ingest w c)) =
    misc (doc w) ++ (if is_misc c then [length (heap w)] else []).
Proof.
  rewrite ingest_doc. unfold is_misc.
  destruct (category_of (interpret c)) as [cat|] eqn:Hcat.
  - rewrite andb_false_r, app_nil_r.
    destruct (obj_in _ _); [done|]. apply insert_in_misc.
  - rewrite bool_decide_eq_true_2, andb_true_r by done.
    destruct (isIgnored (interpret c)); simpl; [by rewrite app_nil_r|done].
Qed.

Lemma fold_ingest_lookup cat cs w n :
  category_map cat (doc (fold_left ingest cs w)) !! n =
    match category_map cat (doc w) !! n with
    | Some x => Some x
    | None =>
        if inherited n then None
        else (λ i, length (heap w) + i) <$> first_index (claims cat n) cs
    end.
Proof.
  revert w. induction cs as [|c cs IH]; intros w; simpl.
  - destruct (category_map cat (doc w) !! n); [done|]. by destruct (inherited n).
  - rewrite IH, ingest_lookup, ingest_heap, length_app. simpl.
    destruct (category_map cat (doc w) !! n); [done|].
    destruct (inherited n); [done|].
    destruct (claims cat n c); simpl; [f_equal; lia|].
    destruct (first_index (claims cat n) cs); simpl; [f_equal; lia|done].
Qed.

Lemma fold_ingest_misc cs w :
  misc (doc (fold_left ingest cs w)) =
    misc (doc w) ++ indices_from is_misc cs (length (heap w)).
Proof.
  revert w. induction cs as [|c cs IH]; intros w; simpl.
  - by rewrite app_nil_r.
  - rewrite IH, ingest_misc, ingest_heap, length_app, <- app_assoc. simpl.
    by rewrite Nat.add_1_r.
Qed.

Lemma build_lookup verbose cs cat n :
  category_map cat (doc (build verbose cs)) !! n =
    if inherited n then None else first_index (claims cat n) cs.
Proof.
  rewrite build_doc, fold_ingest_lookup.
  assert (category_map cat (doc (addSource cs (World_new verbose))) !! n = None)
    as -> by (destruct cat; apply lookup_empty).
  destruct (inherited n); [done|]. simpl.
  by destruct (first_index (claims cat n) cs).
Qed.

Lemma build_misc verbose cs :
  misc (doc (build verbose cs)) = indices_from is_misc cs 0.
Proof. by rewrite build_doc, fold_ingest_misc. Qed.

(** X4: the four maps of a finished build.  A map holds under a name the
    first comment, in arrival order, whose object belongs to that map and
    carries that name, and nothing under a name that no such comment
    carries; under a name that [Object.prototype] defines it never holds
    anything. *)
Theorem index_maps_of_build (verbose : bool) (cs : list Comment)
    (cat : Category) (n : string) :
  category_map cat (doc (build verbose cs)) !! n =
    if inherited n then None else first_index (claims cat n) cs.
Proof. apply build_lookup. Qed.

(** X5: [misc] of a finished build lists, in arrival order, exactly the
    comments whose object is not ignored and has none of the flags class,
    module, function, constant, enum. *)
Theorem misc_of_build (verbose : bool) (cs : list Comment) :
  misc (doc (build verbose cs)) = indices_from is_misc cs 0.
Proof. apply build_misc. Qed.

Lemma first_index_Some {A} (f : A → bool) (l : list A) (i : nat) :
  first_index f l = Some i → ∃ x, l !! i = Some x ∧ f x = true.
Proof.
  revert i. induction l as [|x l IH]; intros i; simpl; [done|].
  destruct (f x) eqn:Hx.
  - intros [= <-]. by exists x.
  - destruct (first_index f l) as [j|]; [|done]. simpl. intros [= <-].
    by apply IH.
Qed.

Lemma first_index_None {A} (f : A → bool) (l : list A) (x : A) :
  first_index f l = None → x ∈ l → f x = false.
Proof.
  induction l as [|y l IH]; simpl; intros Hn Hin; [by apply elem_of_nil in Hin|].
  destruct (f y) eqn:Hy; [done|].
  destruct (first_index f l); [done|].
  apply elem_of_cons in Hin as [->|Hin]; [done|by apply IH].
Qed.

Lemma indices_from_elem {A} (f : A → bool) (l : list A) (s r : nat) :
  r ∈ indices_from f l s →
  s ≤ r ∧ ∃ x, l !! (r - s) = Some x ∧ f x = true.
Proof.
  revert s. induction l as [|x l IH]; intros s; simpl.
  - intros H. by apply elem_of_nil in H.
  - intros [Hin|Hin]%elem_of_app.
    + destruct (f x) eqn:Hx; [|by apply elem_of_nil in Hin].
      apply list_elem_of_singleton in Hin as ->.
      split; [lia|]. exists x. by rewrite Nat.sub_diag.
    + apply IH in Hin as (Hle & y & Hy & Hfy). split; [lia|].
      exists y. split; [|done].
      replace (r - s) with (S (r - S s)) by lia. done.
Qed.

Lemma indices_from_NoDup {A} (f : A → bool) (l : list A) (s : nat) :
  NoDup (indices_from f l s).
Proof.
  revert s. induction l as [|x l IH]; intros s; simpl; [constructor|].
  destruct (f x); simpl; [|apply IH].
  constructor; [|apply IH].
  intros [Hle _]%indices_from_elem. lia.
Qed.

Lemma indices_from_shift {A} (f : A → bool) (l : list A) (a s : nat) :
  indices_from f l (a + s) = (λ r, a + r) <$> indices_from f l s.
Proof.
  revert s. induction l as [|x l IH]; intros s; simpl; [done|].
  rewrite fmap_app. replace (S (a + s)) with (a + S s) by lia.
  rewrite IH. by destruct (f x).
Qed.

Lemma category_of_with_children e l :
  category_of (with_children e l) = category_of e.
Proof. reflexivity. Qed.

(** What a slot of a finished build holds: the comment at that position
    belongs to the slot. *)
Lemma build_holds verbose cs s r :
  holds (doc (build verbose cs)) s r →
  ∃ c, cs !! r = Some c ∧ isIgnored (interpret c) = false
       ∧ match s with
         | InMap cat k =>
             category_of (interpret c) = Some cat ∧ name (interpret c) = k
         | InMisc _ => category_of (interpret c) = None
         end.
Proof.
  destruct s as [cat k|i]; simpl.
  - rewrite build_lookup. destruct (inherited k); [done|].
    intros (c & Hc & [Hcat Hname]%claims_spec)%first_index_Some.
    exists c. split_and!; try done.
    unfold category_of in Hcat. by destruct (isIgnored (interpret c)).
  - rewrite build_misc. intros Hr%list_elem_of_lookup_2.
    apply indices_from_elem in Hr as (_ & c & Hc & Hm).
    rewrite Nat.sub_0_r in Hc. exists c.
    unfold is_misc in Hm. apply andb_true_iff in Hm as [Hi Hcat].
    apply negb_true_iff in Hi. apply bool_decide_eq_true in Hcat. done.
Qed.

(** X6: every object that a finished build holds in a map is held under
    its own name and in the map its flags select, with class before module
    before function before constant or enum; the objects in [misc] have
    none of these flags; and no object held anywhere is ignored. *)
Theorem held_under_own_name_and_kind (verbose : bool) (cs : list Comment)
    (s : Slot) (r : ref) :
  holds (doc (build verbose cs)) s r →
  ∃ e, heap (build verbose cs) !! r = Some e
       ∧ isIgnored e = false
       ∧ match s with
         | InMap cat k => category_of e = Some cat ∧ name e = k
         | InMisc _ => category_of e = None
         end.
Proof.
  intros (c & Hc & Hign & Hs)%build_holds.
  destruct (build_object verbose cs r c Hc) as (e & He & Heq).
  exists e. split; [done|]. rewrite Heq, category_of_with_children. simpl.
  split; [done|]. by destruct s.
Qed.

Lemma held_under_own_name_and_kind_witness :
  ∃ e, heap (build false duplicate_comments) !! 1 = Some e
       ∧ isIgnored e = false
       ∧ category_of e = Some Functions ∧ name e = "f".
Proof.
  apply (held_under_own_name_and_kind false duplicate_comments
           (InMap Functions "f") 1).
  vm_compute. reflexivity.
Defined.

(** X7: a finished build holds every object in at most one place: if two
    slots (keys of the four maps, positions of [misc]) hold the same
    object, they are the same slot. *)
Theorem one_slot_per_object (verbose : bool) (cs : list Comment)
    (s1 s2 : Slot) (r : ref) :
  holds (doc (build verbose cs)) s1 r →
  holds (doc (build verbose cs)) s2 r →
  s1 = s2.
Proof.
  intros H1 H2.
  pose proof (build_holds _ _ _ _ H1) as (c1 & Hc1 & _ & Hs1).
  pose proof (build_holds _ _ _ _ H2) as (c2 & Hc2 & _ & Hs2).
  assert (c2 = c1) as -> by congruence.
  destruct s1 as [cat1 k1|i1], s2 as [cat2 k2|i2];
    [destruct Hs1, Hs2; congruence|destruct Hs1; congruence
    |destruct Hs2; congruence|].
  change (misc (doc (build verbose cs)) !! i1 = Some r) in H1.
  change (misc (doc (build verbose cs)) !! i2 = Some r) in H2.
  rewrite build_misc in H1, H2. f_equal.
  by eapply (NoDup_lookup _ i1 i2 r (indices_from_NoDup is_misc cs 0)).
Qed.

Lemma one_slot_per_object_witness :
  InMap Classes "P" = InMap Classes "P".
Proof.
  apply (one_slot_per_object false duplicate_comments
           (InMap Classes "P") (InMap Classes "P") 0);
    vm_compute; reflexivity.
Defined.

(** ** One object per comment *)

(** X8: a build makes one object per comment, in arrival order and also
    for comments that are ignored or dropped as duplicates: the heap has as
    many objects as there are comments, and the object at a comment's
    position has the fields the constructor computed from that comment,
    with only its children added since. *)
Theorem one_object_per_comment (verbose : bool) (cs : list Comment) :
  length (heap (build verbose cs)) = length cs
  ∧ ∀ i c, cs !! i = Some c →
      ∃ e, heap (build verbose cs) !! i = Some e
           ∧ e = with_children ((CommentContext_new c (World_new verbose)).1.2)
                   (_children e).
Proof.
  split.
  - rewrite build_unfold. unfold run_microtasks.
    rewrite fold_run_job_length. simpl. apply ingested_heap_length.
  - intros i c Hi. rewrite CommentContext_new_fields. simpl.
    by apply build_object.
Qed.

(** ** A second run of [processSource] *)

Lemma ingest_comments w c : comments (doc (ingest w c)) = comments (doc w).
Proof.
  rewrite ingest_doc. destruct (category_of (interpret c)).
  - destruct (obj_in _ _); [done|]. apply insert_in_comments.
  - by destruct (isIgnored (interpret c)).
Qed.

Lemma fold_ingest_comments cs w :
  comments (doc (fold_left ingest cs w)) = comments (doc w).
Proof.
  revert w. induction cs as [|c cs IH]; intros w; simpl; [done|].
  by rewrite IH, ingest_comments.
Qed.

Lemma build_comments verbose cs : comments (doc (build verbose cs)) = cs.
Proof. by rewrite build_doc, fold_ingest_comments. Qed.

Lemma build_heap_length verbose cs : length (heap (build verbose cs)) = length cs.
Proof.
  rewrite build_unfold. unfold run_microtasks.
  rewrite fold_run_job_length. simpl. apply ingested_heap_length.
Qed.

(** X9: [processSource] goes over all comments again on every call.  After
    a finished build a second call makes a second object for every comment,
    leaves the four maps as they are (every name is claimed by now), and
    appends the new objects of the unrecognized comments to [misc] once
    more. *)
Theorem second_processSource (verbose : bool) (cs : list Comment) :
  let w1 := build verbose cs in
  let w2 := processSource w1 in
  (∀ cat, category_map cat (doc w2) = category_map cat (doc w1))
  ∧ misc (doc w2) = misc (doc w1) ++ ((λ r, length cs + r) <$> misc (doc w1))
  ∧ length (heap w2) = length cs + length cs.
Proof.
  simpl. unfold processSource. rewrite build_comments. split_and!.
  - intros cat. apply map_eq. intros n.
    rewrite fold_ingest_lookup, build_lookup.
    destruct (inherited n); [done|].
    destruct (first_index (claims cat n) cs); done.
  - rewrite fold_ingest_misc, build_misc, build_heap_length.
    f_equal. rewrite <- (indices_from_shift is_misc cs (length cs) 0).
    by rewrite Nat.add_0_r.
  - by rewrite fold_ingest_heap, length_app, length_fmap, build_heap_length.
Qed.

(** ** Attaching children *)

(** X10: [addChild] appends the child to the children of the parent it is
    called on, when that parent exists, and changes nothing else: not the
    children of any other object, not the number of objects, and no other
    field of any object, the child's [_parent] included. *)
Theorem addChild_appends_only (this child : ref) (h : Heap) :
  length (addChild this child h) = length h
  ∧ (∀ x, children_of (addChild this child h) x =
           if decide (x = this ∧ this < length h)
           then children_of h x ++ [child] else children_of h x)
  ∧ (∀ x e, addChild this child h !! x = Some e →
       ∃ e0, h !! x = Some e0 ∧ e = with_children e0 (_children e)).
Proof.
  split_and!.
  - apply addChild_length.
  - intros x. apply addChild_children.
  - intros x e. apply addChild_fields.
Qed.

Lemma fold_run_job_children js w P :
  P < length (heap w) →
  children_of (heap (fold_left run_job js w)) P =
    children_of (heap w) P ++ (j_child <$> filter (attaches_to P) js).
Proof.
  revert w. induction js as [|j js IH]; intros w HP; simpl.
  - by rewrite app_nil_r.
  - rewrite IH by (by rewrite run_job_length).
    rewrite filter_cons. destruct (decide (attaches_to P j)) as [Hj|Hj].
    + unfold run_job. rewrite Hj. simpl.
      rewrite addChild_children, decide_True by done.
      by rewrite <- app_assoc.
    + f_equal. unfold run_job, attaches_to in *.
      destruct (j_value j) as [| |cls|k]; simpl; try done.
      rewrite addChild_children, decide_False; [done|].
      intros [-> _]. by apply Hj.
Qed.

Lemma run_microtasks_empty w : jobs w = [] → run_microtasks w = w.
Proof. unfold run_microtasks. destruct w; simpl. by intros ->. Qed.

Lemma run_microtasks_jobs w : jobs (run_microtasks w) = [].
Proof.
  unfold run_microtasks.
  by destruct (fold_run_job_async (jobs w) (set_jobs w [])) as (_ & _ & -> & _).
Qed.

(** X11: the run of the microtasks.  Every queued reaction calls
    [addChild] once, in queue order: an object ends with its former
    children followed by the children of the reactions queued for it.  The
    queue is empty afterwards, the index, the promises and the
    subscriptions are untouched, and running the microtasks again changes
    nothing. *)
Theorem microtasks_attach_in_queue_order (w : World) (P : ref) :
  P < length (heap w) →
  children_of (heap (run_microtasks w)) P =
    children_of (heap w) P ++ (j_child <$> filter (attaches_to P) (jobs w))
  ∧ jobs (run_microtasks w) = []
  ∧ doc (run_microtasks w) = doc w
  ∧ promises (run_microtasks w) = promises w
  ∧ subs (run_microtasks w) = subs w
  ∧ run_microtasks (run_microtasks w) = run_microtasks w.
Proof.
  intros HP. split_and!.
  - unfold run_microtasks. by rewrite fold_run_job_children.
  - apply run_microtasks_jobs.
  - apply run_microtasks_doc.
  - unfold run_microtasks.
    by destruct (fold_run_job_async (jobs w) (set_jobs w [])) as (-> & _).
  - unfold run_microtasks.
    by destruct (fold_run_job_async (jobs w) (set_jobs w [])) as (_ & -> & _).
  - apply run_microtasks_empty, run_microtasks_jobs.
Qed.

Lemma microtasks_attach_in_queue_order_witness :
  children_of (heap (run_microtasks queue_world)) 0 =
    children_of (heap queue_world) 0
    ++ (j_child <$> filter (attaches_to 0) (jobs queue_world))
  ∧ jobs (run_microtasks queue_world) = []
  ∧ doc (run_microtasks queue_world) = doc queue_world
  ∧ promises (run_microtasks queue_world) = promises queue_world
  ∧ subs (run_microtasks queue_world) = subs queue_world
  ∧ run_microtasks (run_microtasks queue_world) = run_microtasks queue_world.
Proof.
  apply (microtasks_attach_in_queue_order queue_world 0).
  vm_compute. lia.
Defined.

(** ** Parents known at the time of the tag *)

(** X12: when the single-segment parent named by a "memberOf" tag is known
    at the time the comment is ingested, the finished build has the
    comment's object among the children of that parent.  This holds
    whatever the flags of the comment are: also for an ignored comment and
    for one dropped as a duplicate. *)
Theorem known_parent_gets_child (verbose : bool)
    (pre : list Comment) (c : Comment) (post : list Comment) (t : Tag) (P : ref) :
  let all := pre ++ c :: post in
  t ∈ c_tags c → tag_type t = "memberOf" → has_dot (tag_parent t) = false →
  top_level (doc (ingested verbose all pre)) (tag_parent t) = JRef P →
  P < length pre
  ∧ length pre ∈ children_of (heap (build verbose all)) P.
Proof.
  intros all Hin Hty Hdot Htop. split.
  - by apply top_level_stored, ingested_stored in Htop.
  - by apply (parent_before_child_attached verbose pre c post t P).
Qed.

Lemma known_parent_gets_child_witness :
  0 < 1
  ∧ 1 ∈ children_of
          (heap (build false
             [ comment_of [tag_of "module"; tag_name "M"] "";
               comment_of [tag_of "ignore"; tag_memberOf "M"] "" ])) 0.
Proof.
  apply (known_parent_gets_child false
           [comment_of [tag_of "module"; tag_name "M"] ""]
           (comment_of [tag_of "ignore"; tag_memberOf "M"] "") []
           (tag_memberOf "M") 0).
  - right. left.
  - reflexivity.
  - reflexivity.
  - vm_compute. reflexivity.
Defined.

(** ** The parent back-reference *)

(** X13: no object ever gets a parent back-reference.  Every object of a
    finished build has [_parent] undefined, and from any state where this
    holds it still holds after further comments, microtask runs and
    [getClass] calls: the assignment in [addChild] never takes effect. *)
Theorem parent_never_assigned :
  (∀ verbose cs, parents_unset (heap (build verbose cs)))
  ∧ (∀ w w', parents_unset (heap w) → rtc step w w' →
       parents_unset (heap w')).
Proof.
  split.
  - apply build_parents_unset.
  - intros w w' Hw Hsteps. induction Hsteps as [|w w1 w' Hstep _ IH]; [done|].
    apply IH. by eapply step_parents_unset.
Qed.

(** ** Outcomes of [getClass] *)

Lemma every_part_throw h ctx tmp parts :
  every_part h ctx tmp parts = WalkThrow → truthy ctx = true →
  ∃ k, ctx = JProto k.
Proof.
  destruct ctx as [| |r|k]; try done.
  - intros H. by apply every_part_ref_no_throw in H.
  - by exists k.
Qed.

(** X14: [getClass] only makes a promise and, at most, one subscription.
    It returns the next promise, without a reaction, and leaves the
    objects, the index, the microtask queue and the unhandled rejections as
    they are.  It subscribes exactly when the first segment names neither a
    class nor a module nor a member of [Object.prototype], under the topic
    of the whole name, and the promise is then pending.  The promise is
    rejected only when the first segment resolved to a member of
    [Object.prototype]. *)
Theorem getClass_frame (className : string) (w : World) :
  let '(p, w') := getClass className w in
  let nm := hd "" (split_dot className) in
  let parts := tl (split_dot className) in
  p = length (promises w)
  ∧ heap w' = heap w ∧ doc w' = doc w ∧ jobs w' = jobs w
  ∧ unhandled w' = unhandled w
  ∧ ∃ st, promises w' = promises w ++ [mkPromise st None]
      ∧ (if truthy (top_level (doc w) nm) then subs w' = subs w
         else st = Pending
              ∧ subs w' = subs w ++ [("resolve:" +:+ className,
                                      mkWaiter nm parts p)])
      ∧ (st = Rejected → ∃ k, top_level (doc w) nm = JProto k).
Proof.
  rewrite getClass_unfold. unfold getClass_state.
  destruct (truthy (top_level (doc w) (hd "" (split_dot className)))) eqn:Ht.
  - destruct (every_part _ _ _ _) eqn:Hwalk; simpl;
      (split_and!; [done..|]); eexists; (split_and!; [done..|]); try done.
    intros _. by eapply every_part_throw.
  - simpl. split_and!; try done. exists Pending. by split_and!.
Qed.

(** X15: [getClass] of a single-segment name.  When a class has the name
    the promise is fulfilled at once with the class, also when a module has
    the same name; otherwise with the module of that name; when neither
    exists and [Object.prototype] does not define the name, the promise
    stays pending behind a subscription that has no segment left to
    walk. *)
Theorem getClass_single_segment (nm : string) (w : World) :
  has_dot nm = false →
  let '(p, w') := getClass nm w in
  let settled v :=
    promises w' = promises w ++ [mkPromise (Fulfilled v) None]
    ∧ subs w' = subs w ∧ console w' = console w in
  match classes (doc w) !! nm, modules (doc w) !! nm with
  | Some a, _ => settled (JRef a)
  | None, Some b => if inherited nm then settled (JProto nm) else settled (JRef b)
  | None, None =>
      if inherited nm then settled (JProto nm)
      else promises w' = promises w ++ [mkPromise Pending None]
           ∧ subs w' = subs w ++ [("resolve:" +:+ nm, mkWaiter nm [] p)]
           ∧ console w' = console w
  end.
Proof.
  intros Hdot. rewrite getClass_unfold. unfold getClass_state.
  rewrite split_dot_single by done. simpl. unfold top_level, obj_get.
  destruct (classes (doc w) !! nm) as [a|]; simpl; [done|].
  destruct (inherited nm); simpl.
  - by destruct (modules (doc w) !! nm).
  - by destruct (modules (doc w) !! nm).
Qed.

Lemma getClass_single_segment_witness :
  let '(p, w') := getClass "A" sample_world in
  let settled v :=
    promises w' = promises sample_world ++ [mkPromise (Fulfilled v) None]
    ∧ subs w' = subs sample_world ∧ console w' = console sample_world in
  match classes (doc sample_world) !! "A", modules (doc sample_world) !! "A" with
  | Some a, _ => settled (JRef a)
  | None, Some b => if inherited "A" then settled (JProto "A") else settled (JRef b)
  | None, None =>
      if inherited "A" then settled (JProto "A")
      else promises w' = promises sample_world ++ [mkPromise Pending None]
           ∧ subs w' = subs sample_world ++ [("resolve:" +:+ "A", mkWaiter "A" [] p)]
           ∧ console w' = console sample_world
  end.
Proof. apply (getClass_single_segment "A" sample_world). reflexivity. Defined.

(** ** Subscriptions and other names *)

(** X16: a resolution that waits for the name [pn] keeps waiting through
    the ingestion of any comment whose qualified name (the declared parent,
    a dot, the name) differs from [pn].  In particular a class or module
    named [pn] that declares a parent is stored under [pn] and still does
    not resolve it. *)
Theorem subscription_survives_other_names (p : nat) (child : ref)
    (pn : string) (w : World) (comment : Comment) :
  awaiting p child ("resolve:" +:+ pn) w →
  qualified_name (interpret comment) ≠ pn →
  awaiting p child ("resolve:" +:+ pn) (ingest w comment).
Proof.
  intros Hw Hne. rewrite ingest_unfold.
  destruct (constructed_extends comment w) as (w1 & Hext & Hcon).
  apply (extends_awaiting p child _ w w1) in Hw; [|done].
  assert (awaiting p child ("resolve:" +:+ pn) (constructed comment w)) as Haw.
  { rewrite Hcon. destruct Hw as (? & ? & ?). by unfold awaiting. }
  destruct (classify_cases (length (heap w)) (interpret comment)
              (constructed comment w)) as (w0 & Hsame & [->|[-> _]]).
  - by eapply same_async_awaiting.
  - apply publish_awaiting_other.
    + by intros H%append_inj_l.
    + by eapply same_async_awaiting.
Qed.

Lemma subscription_survives_other_names_witness :
  awaiting 0 0 ("resolve:" +:+ "P") (ingest waiting_world nested_class_comment)
  ∧ classes (doc (ingest waiting_world nested_class_comment)) !! "P" = Some 1.
Proof.
  split; [|vm_compute; reflexivity].
  apply (subscription_survives_other_names 0 0 "P" waiting_world
           nested_class_comment).
  - unfold awaiting. split_and!.
    + vm_compute. reflexivity.
    + exists "P". vm_compute. left.
    + intros s Hin _. vm_compute in Hin. elem_cases Hin. done.
  - vm_compute. discriminate.
Defined.

(** ** Dotted parents within one build *)

Lemma children_empty_lookup h r : children_empty h → children_of h r = [].
Proof.
  unfold children_empty, children_of. rewrite Forall_lookup. intros Hh.
  destruct (h !! r) as [e|] eqn:He; [by eapply Hh|done].
Qed.

Lemma every_part_empty_children h ctx tmp parts v :
  children_empty h → parts ≠ [] → every_part h ctx tmp parts ≠ WalkDone v.
Proof.
  intros Hh Hparts. destruct parts as [|part rest]; [done|]. simpl.
  destruct ctx as [| |r|k]; try done.
  unfold getFirstChild. by rewrite children_empty_lookup.
Qed.

Lemma split_on_nonempty sep s : split_on sep s ≠ [].
Proof.
  destruct s as [|c s]; simpl; [done|].
  destruct (Ascii.eqb c sep); [done|]. by destruct (split_on sep s).
Qed.

Lemma split_dot_dotted s : has_dot s = true → tl (split_dot s) ≠ [].
Proof.
  unfold split_dot. induction s as [|c s IH]; simpl; [done|].
  destruct (Ascii.eqb c ".") eqn:Hc; simpl.
  - intros _. apply split_on_nonempty.
  - intros Hs. specialize (IH Hs).
    by destruct (split_on "." s) as [|x l].
Qed.

(** A "memberOf" tag keeps [never_attaches] when it belongs to another
    object, or names a dotted path. *)
Lemma memberOf_never_attaches i cn self w :
  never_attaches i w → self ≠ i ∨ has_dot cn = true →
  never_attaches i (memberOf_state cn self w).
Proof.
  intros (Hids & Hempty & Hjobs & Hsubs) Hcase.
  pose proof (memberOf_extends cn self w) as Hext.
  pose proof (extends_ids_allocated _ _ Hext Hids) as Hids'.
  destruct Hids as (Hs & _).
  assert (∀ s, s ∈ subs w → ∀ pr0,
    (promises w ++ [pr0]) !! w_resolve s.2 = promises w !! w_resolve s.2) as Hold.
  { intros s Hin pr0. eapply Forall_forall in Hs; [|done].
    by rewrite lookup_app_l. }
  unfold never_attaches. split; [done|].
  unfold memberOf_state in *.
  destruct (truthy _) eqn:Ht.
  - destruct (every_part _ _ _ _) as [v|tmp|] eqn:Hwalk; simpl.
    + (* resolved at once: impossible for a dotted path *)
      split_and!; [done| |].
      * intros j [Hin|Hin%list_elem_of_singleton]%elem_of_app; [by apply Hjobs|].
        subst j. simpl. destruct Hcase as [?|Hdot]; [done|].
        exfalso. eapply every_part_empty_children; [done| |done].
        by apply split_dot_dotted.
      * intros s pr Hin. rewrite Hold by done. by apply Hsubs.
    + split_and!; [done|done|].
      intros s pr Hin. rewrite Hold by done. by apply Hsubs.
    + split_and!; [done|done|].
      intros s pr Hin. rewrite Hold by done. by apply Hsubs.
  - simpl. split_and!; [done|done|].
    intros s pr [Hin|Hin%list_elem_of_singleton]%elem_of_app.
    + rewrite Hold by done. by apply Hsubs.
    + subst s. simpl. rewrite lookup_app_last. intros [= <-]. simpl.
      intros [= ->]. destruct Hcase as [?|Hdot]; [done|].
      by apply split_dot_dotted.
Qed.

Lemma log_never_attaches i e w : never_attaches i w → never_attaches i (log e w).
Proof. by unfold never_attaches, ids_allocated. Qed.

Lemma processTags_never_attaches i self ts this w :
  never_attaches i w → self ≠ i ∨ all_dotted ts →
  never_attaches i (fold_left (processTag self) ts (this, w)).2.
Proof.
  revert this w. induction ts as [|t ts IH]; intros this w Hw Hcase; [done|].
  simpl.
  assert (self ≠ i ∨ all_dotted ts) as Hcase'.
  { destruct Hcase as [?|Hall]; [by left|right].
    intros t' Hin. apply Hall. by right. }
  destruct (decide (tag_type t = "memberOf")) as [Hty|Hty].
  - rewrite processTag_memberOf by done. apply IH; [|done].
    apply memberOf_never_attaches; [done|].
    destruct Hcase as [?|Hall]; [by left|right]. apply Hall; [left|done].
  - pose proof (processTag_other self this w t Hty) as Hw'.
    destruct (processTag self (this, w) t) as [this1 w1]. simpl in Hw'.
    apply IH; [|done]. destruct Hw' as [->|[e ->]]; [done|].
    by apply log_never_attaches.
Qed.

Lemma resolve_p_then q v w q' :
  p_then <$> promises (resolve q v w) !! q' = p_then <$> promises w !! q'.
Proof.
  unfold resolve. destruct (promises w !! q) as [[[] t]|] eqn:Hq; try done.
  assert (p_then <$> <[q:=mkPromise (Fulfilled v) t]> (promises w) !! q'
          = p_then <$> promises w !! q') as Hins.
  { destruct (decide (q = q')) as [<-|Hne].
    - rewrite list_lookup_insert_eq by by eapply lookup_lt_Some.
      by rewrite Hq.
    - by rewrite list_lookup_insert_ne. }
  by destruct t.
Qed.

Lemma fire_never_attaches i r w cb :
  children_empty (heap w) →
  (∀ j, j ∈ jobs w → j_child j ≠ i) →
  (∀ pr, promises w !! w_resolve cb = Some pr → p_then pr = Some i →
         w_parts cb ≠ []) →
  (∀ j, j ∈ jobs (fire r w cb) → j_child j ≠ i)
  ∧ (∀ q, p_then <$> promises (fire r w cb) !! q = p_then <$> promises w !! q).
Proof.
  intros Hempty Hjobs Hcb. unfold fire, walkParts.
  destruct (every_part _ _ _ _) as [v|tmp|] eqn:Hwalk; simpl; [|done..].
  split; [|intros q; apply resolve_p_then].
  unfold resolve.
  destruct (promises w !! w_resolve cb) as [[[] t]|] eqn:Hq; try done.
  destruct t as [child|]; simpl; [|done].
  intros j [Hin|Hin%list_elem_of_singleton]%elem_of_app; [by apply Hjobs|].
  subst j. simpl. intros ->.
  eapply every_part_empty_children; [done| |done]. by eapply Hcb.
Qed.

Lemma fold_fire_never_attaches i r cbs w :
  children_empty (heap w) →
  (∀ j, j ∈ jobs w → j_child j ≠ i) →
  (∀ cb pr, cb ∈ cbs → promises w !! w_resolve cb = Some pr →
            p_then pr = Some i → w_parts cb ≠ []) →
  (∀ j, j ∈ jobs (fold_left (fire r) cbs w) → j_child j ≠ i)
  ∧ (∀ q, p_then <$> promises (fold_left (fire r) cbs w) !! q
          = p_then <$> promises w !! q).
Proof.
  revert w. induction cbs as [|cb cbs IH]; intros w Hempty Hjobs Hcbs; simpl;
    [done|].
  destruct (fire_never_attaches i r w cb Hempty Hjobs) as [Hjobs1 Hthen1].
  { intros pr. apply Hcbs. left. }
  destruct (IH (fire r w cb)) as [Hjobs2 Hthen2].
  - by destruct (fire_settles r w cb) as (-> & _).
  - done.
  - intros cb' pr Hin Hpr Hi.
    pose proof (Hthen1 (w_resolve cb')) as Heq. rewrite Hpr in Heq.
    destruct (promises w !! w_resolve cb') as [pr0|] eqn:Hpr0; [|done].
    simpl in Heq. injection Heq as Heq.
    apply (Hcbs cb' pr0); [by right|done|congruence].
  - split; [done|]. intros q. by rewrite Hthen2, Hthen1.
Qed.

Lemma publish_never_attaches i topic r w :
  never_attaches i w → never_attaches i (publish topic r w).
Proof.
  intros (Hids & Hempty & Hjobs & Hsubs).
  destruct (publish_frame topic r w) as (Hh & _ & _ & Hs' & _).
  destruct (fold_fire_never_attaches i r (subscribers topic w)
              (set_subs w (List.filter (λ s, negb (on_topic topic s)) (subs w))))
    as [Hjobs' Hthen']; try done.
  { simpl. intros cb pr (s & Hin & _ & <-)%subscribers_elem. by apply Hsubs. }
  unfold never_attaches. split_and!.
  - by apply publish_ids_allocated.
  - by rewrite Hh.
  - done.
  - rewrite Hs'. intros s pr [Hin _]%elem_of_bool_filter Hpr Hi.
    pose proof (Hthen' (w_resolve s.2)) as Heq.
    unfold publish in Hpr. fold (subscribers topic w) in Hpr.
    rewrite Hpr in Heq. simpl in Heq.
    destruct (promises w !! w_resolve s.2) as [pr0|] eqn:Hpr0; [|done].
    simpl in Heq. injection Heq as Heq.
    apply (Hsubs s pr0); [done|done|congruence].
Qed.

Lemma same_async_never_attaches i w0 w :
  same_async w0 w → never_attaches i w → never_attaches i w0.
Proof.
  intros Hsame (Hids & Hrest).
  pose proof (same_async_ids_allocated _ _ Hsame Hids) as Hids0.
  destruct Hsame as (Hh & Hp & Hs & Hj & _).
  unfold never_attaches. by rewrite Hh, Hp, Hs, Hj.
Qed.

Lemma interpret_children comment : _children (interpret comment) = [].
Proof.
  unfold interpret. rewrite (fold_tag_fields_keep _children); [done|tag_step'].
Qed.

Lemma ingest_never_attaches i w c :
  never_attaches i w → length (heap w) ≠ i ∨ all_dotted (c_tags c) →
  never_attaches i (ingest w c).
Proof.
  intros Hw Hcase. rewrite ingest_unfold.
  assert (never_attaches i (constructed c w)) as Hcon.
  { rewrite constructed_unfold.
    pose proof (processTags_never_attaches i (length (heap w)) (c_tags c)
                  (CommentContext_fields c) w Hw Hcase) as (Hids & He & Hj & Hs).
    unfold never_attaches. simpl. split_and!; try done.
    apply Forall_app. split; [by destruct Hw as (_ & ? & _)|].
    constructor; [apply interpret_children|constructor]. }
  destruct (classify_cases (length (heap w)) (interpret c) (constructed c w))
    as (w0 & Hsame & [->|[-> _]]).
  - by eapply same_async_never_attaches.
  - apply publish_never_attaches. by eapply same_async_never_attaches.
Qed.

Lemma fold_ingest_never_attaches i cs w :
  never_attaches i w →
  (∀ k c, cs !! k = Some c → length (heap w) + k ≠ i ∨ all_dotted (c_tags c)) →
  never_attaches i (fold_left ingest cs w).
Proof.
  revert w. induction cs as [|c cs IH]; intros w Hw Hcs; simpl; [done|].
  apply IH.
  - apply ingest_never_attaches; [done|].
    destruct (Hcs 0 c eq_refl) as [?|?]; [left; lia|by right].
  - intros k c' Hk. rewrite ingest_heap, length_app. simpl.
    destruct (Hcs (S k) c' Hk) as [?|?]; [left; lia|by right].
Qed.

(** X17: within one build a dotted "memberOf" path never attaches
    anything.  The reactions that call [addChild] only run after
    [processSource] has returned, so every walk down a dotted path finds an
    object without children.  A comment whose "memberOf" tags all name
    dotted paths therefore ends the build as the child of no object,
    whether or not the classes along the path are documented, before or
    after it. *)
Theorem dotted_parent_never_attached (verbose : bool) (all : list Comment)
    (i : nat) (c : Comment) :
  all !! i = Some c → all_dotted (c_tags c) →
  ∀ P, i ∉ children_of (heap (build verbose all)) P.
Proof.
  intros Hi Hdot P.
  assert (never_attaches i (ingested verbose all all)) as (_ & Hempty & Hjobs & _).
  { apply fold_ingest_never_attaches.
    - unfold never_attaches, ids_allocated, children_empty. simpl.
      split_and!; try done; intros j Hj; by apply elem_of_nil in Hj.
    - intros k c' Hk. simpl. destruct (decide (k = i)) as [->|Hne]; [|by left].
      right. by assert (c' = c) as -> by congruence. }
  rewrite build_unfold.
  destruct (decide (P < length (heap (ingested verbose all all)))) as [HP|HP].
  - unfold run_microtasks. rewrite fold_run_job_children by done. simpl.
    rewrite children_empty_lookup by done. simpl.
    intros (j & Hj & [_ Hin]%list_elem_of_filter)%list_elem_of_fmap.
    by eapply Hjobs.
  - unfold children_of.
    rewrite (proj2 (lookup_ge_None _ _)); [apply not_elem_of_nil|].
    unfold run_microtasks. rewrite fold_run_job_length. simpl. lia.
Qed.

Lemma dotted_parent_never_attached_witness :
  let w := build false
             [ comment_of [tag_of "class"; tag_name "A"] "";
               comment_of [tag_of "class"; tag_name "B"; tag_memberOf "A"] "";
               comment_of [tag_of "function"; tag_name "f"; tag_memberOf "A.B"] "" ] in
  (2 ∉ children_of (heap w) 0) ∧ (2 ∉ children_of (heap w) 1).
Proof.
  assert (all_dotted [tag_of "function"; tag_name "f"; tag_memberOf "A.B"])
    as Hdot.
  { intros t Hin Hty. elem_cases Hin; done. }
  split;
    apply (dotted_parent_never_attached false _ 2
             (comment_of [tag_of "function"; tag_name "f"; tag_memberOf "A.B"] ""));
    (reflexivity || exact Hdot).
Defined.

(** ** Console output of a build *)

Section Console.
Variable keep : LogEntry → bool.
Hypothesis keep_waiting : ∀ path, keep (LogWaitingFor path) = false.

Lemma log_waiting_console path w :
  List.filter keep (console (log (LogWaitingFor path) w))
  = List.filter keep (console w).
Proof.
  unfold log. simpl. rewrite List.filter_app. simpl.
  by rewrite keep_waiting, app_nil_r.
Qed.

Lemma resolve_console q v w : console (resolve q v w) = console w.
Proof.
  unfold resolve. destruct (promises w !! q) as [[[] t]|]; try done.
  by destruct t.
Qed.

Lemma fire_console r w cb :
  List.filter keep (console (fire r w cb)) = List.filter keep (console w).
Proof.
  unfold fire, walkParts. destruct (every_part _ _ _ _); simpl.
  - by rewrite resolve_console.
  - apply log_waiting_console.
  - done.
Qed.

Lemma publish_console topic r w :
  List.filter keep (console (publish topic r w)) = List.filter keep (console w).
Proof.
  unfold publish. generalize (map snd (List.filter (on_topic topic) (subs w))).
  intros cbs.
  assert (∀ w0, List.filter keep (console (fold_left (fire r) cbs w0))
                = List.filter keep (console w0)) as Hfold.
  { induction cbs as [|cb cbs IH]; intros w0; simpl; [done|].
    by rewrite IH, fire_console. }
  by rewrite Hfold.
Qed.

Lemma memberOf_console cn self w :
  List.filter keep (console (memberOf_state cn self w))
  = List.filter keep (console w).
Proof.
  unfold memberOf_state.
  destruct (truthy _); [destruct (every_part _ _ _ _)|]; simpl; try done.
  rewrite List.filter_app. simpl. by rewrite keep_waiting, app_nil_r.
Qed.

Lemma processTag_recognized_console self this w t :
  ¬ unrecognized t →
  List.filter keep (console (processTag self (this, w) t).2)
  = List.filter keep (console w).
Proof.
  intros Hrec. destruct (decide (tag_type t = "memberOf")) as [Hty|Hty].
  { rewrite processTag_memberOf by done. apply memberOf_console. }
  unfold processTag. destruct (getClass (tag_parent t) w) as [p w1].
  switch_cases; simpl; try reflexivity; try congruence;
    exfalso; apply Hrec; unfold unrecognized, recognized_tag_types,
      recognized_kinds;
    [right; split; [done|]|left];
    rewrite !not_elem_of_cons; split_and!; try done; apply not_elem_of_nil.
Qed.
End Console.

Lemma processTag_tag_warnings self this w t :
  List.filter is_tag_warning (console (processTag self (this, w) t).2)
  = List.filter is_tag_warning (console w)
    ++ (if decide (unrecognized t) then [warning_for t] else []).
Proof.
  destruct (decide (unrecognized t)) as [Hun|Hrec].
  - rewrite processTag_unrecognized by done. unfold log. simpl.
    rewrite List.filter_app. f_equal. simpl.
    unfold warning_for. by case_decide.
  - rewrite processTag_recognized_console by done. by rewrite app_nil_r.
Qed.

Lemma processTag_comment_warnings self this w t :
  List.filter is_comment_warning (console (processTag self (this, w) t).2)
  = List.filter is_comment_warning (console w).
Proof.
  destruct (decide (unrecognized t)) as [Hun|Hrec].
  - rewrite processTag_unrecognized by done. unfold log. simpl.
    rewrite List.filter_app. simpl.
    unfold warning_for. case_decide; simpl; by rewrite app_nil_r.
  - by rewrite processTag_recognized_console.
Qed.

Lemma processTags_tag_warnings self ts this w :
  List.filter is_tag_warning (console (fold_left (processTag self) ts (this, w)).2)
  = List.filter is_tag_warning (console w)
    ++ (warning_for <$> filter unrecognized ts).
Proof.
  revert this w. induction ts as [|t ts IH]; intros this w; simpl.
  - by rewrite app_nil_r.
  - pose proof (processTag_tag_warnings self this w t) as Hstep.
    destruct (processTag self (this, w) t) as [this1 w1]. simpl in Hstep.
    rewrite IH, Hstep, filter_cons, <- app_assoc.
    by destruct (decide (unrecognized t)).
Qed.

Lemma processTags_comment_warnings self ts this w :
  List.filter is_comment_warning
    (console (fold_left (processTag self) ts (this, w)).2)
  = List.filter is_comment_warning (console w).
Proof.
  revert this w. induction ts as [|t ts IH]; intros this w; simpl; [done|].
  pose proof (processTag_comment_warnings self this w t) as Hstep.
  destruct (processTag self (this, w) t) as [this1 w1]. simpl in Hstep.
  by rewrite IH, Hstep.
Qed.

Lemma constructed_console comment w :
  console (constructed comment w)
  = console (fold_left (processTag (length (heap w))) (c_tags comment)
               (CommentContext_fields comment, w)).2.
Proof. by rewrite constructed_unfold. Qed.

Lemma classify_tag_warnings r ctx w :
  List.filter is_tag_warning (console (classify r ctx w))
  = List.filter is_tag_warning (console w).
Proof.
  unfold classify.
  repeat match goal with
         | |- context [if ?b then _ else _] => destruct b
         end;
    try done; try (by rewrite publish_console).
  unfold log. simpl. rewrite List.filter_app. simpl. by rewrite app_nil_r.
Qed.

Lemma classify_comment_warnings r ctx w :
  List.filter is_comment_warning (console (classify r ctx w))
  = List.filter is_comment_warning (console w)
    ++ (if options_verbose (doc w) && negb (isIgnored ctx)
           && bool_decide (category_of ctx = None)
        then [WarnUnrecognizedComment r] else []).
Proof.
  unfold classify, category_of.
  destruct (isIgnored ctx); simpl.
  { by rewrite andb_false_r, app_nil_r. }
  rewrite andb_true_r.
  destruct (isClass ctx); simpl.
  { rewrite andb_false_r, app_nil_r.
    destruct (obj_in _ _); simpl; [done|]. by rewrite publish_console. }
  destruct (isModule ctx); simpl.
  { rewrite andb_false_r, app_nil_r.
    destruct (obj_in _ _); simpl; [done|]. by rewrite publish_console. }
  destruct (isFunction ctx); simpl.
  { rewrite andb_false_r, app_nil_r. by destruct (obj_in _ _). }
  destruct (isConstant ctx || isEnum ctx); simpl.
  { rewrite andb_false_r, app_nil_r. by destruct (obj_in _ _). }
  rewrite andb_true_r.
  destruct (options_verbose (doc w)); simpl; [|by rewrite app_nil_r].
  by rewrite List.filter_app.
Qed.

Lemma ingest_tag_warnings w c :
  List.filter is_tag_warning (console (ingest w c))
  = List.filter is_tag_warning (console w)
    ++ (warning_for <$> filter unrecognized (c_tags c)).
Proof.
  by rewrite ingest_unfold, classify_tag_warnings, constructed_console,
    processTags_tag_warnings.
Qed.

Lemma ingest_comment_warnings w c :
  List.filter is_comment_warning (console (ingest w c))
  = List.filter is_comment_warning (console w)
    ++ (if options_verbose (doc w) && is_misc c
        then [WarnUnrecognizedComment (length (heap w))] else []).
Proof.
  rewrite ingest_unfold, classify_comment_warnings, constructed_console,
    processTags_comment_warnings, constructed_doc.
  unfold is_misc. by rewrite andb_assoc.
Qed.

Lemma ingest_verbose w c :
  options_verbose (doc (ingest w c)) = options_verbose (doc w).
Proof.
  rewrite ingest_doc. destruct (category_of (interpret c)) as [cat|].
  - destruct (obj_in _ _); [done|]. by destruct cat.
  - by destruct (isIgnored (interpret c)).
Qed.

Lemma fold_ingest_tag_warnings cs w :
  List.filter is_tag_warning (console (fold_left ingest cs w))
  = List.filter is_tag_warning (console w)
    ++ (warning_for <$> filter unrecognized (concat (c_tags <$> cs))).
Proof.
  revert w. induction cs as [|c cs IH]; intros w; simpl.
  - by rewrite app_nil_r.
  - rewrite IH, ingest_tag_warnings, <- app_assoc.
    by rewrite filter_app, fmap_app.
Qed.

Lemma fold_ingest_comment_warnings cs w :
  List.filter is_comment_warning (console (fold_left ingest cs w))
  = List.filter is_comment_warning (console w)
    ++ (if options_verbose (doc w)
        then WarnUnrecognizedComment <$> indices_from is_misc cs (length (heap w))
        else []).
Proof.
  revert w. induction cs as [|c cs IH]; intros w; simpl.
  - destruct (options_verbose (doc w)); simpl; by rewrite app_nil_r.
  - rewrite IH, ingest_comment_warnings, ingest_verbose, ingest_heap, length_app.
    simpl. rewrite Nat.add_1_r, <- app_assoc.
    destruct (options_verbose (doc w)); simpl; [|done].
    rewrite fmap_app. by destruct (is_misc c).
Qed.

Lemma run_microtasks_console w : console (run_microtasks w) = console w.
Proof.
  unfold run_microtasks.
  assert (∀ js w0, console (fold_left run_job js w0) = console w0) as Hfold.
  { induction js as [|j js IH]; intros w0; simpl; [done|].
    rewrite IH. unfold run_job. by destruct (j_value j). }
  by rewrite Hfold.
Qed.

(** X18: over a whole build the console shows exactly one "Unrecognized
    tag" or "Unrecognized kind" warning for every unrecognized tag, in the
    order of the comments and of their tags, also for the tags of ignored
    and of duplicate comments; recognized tags never warn. *)
Theorem one_warning_per_unrecognized_tag (verbose : bool) (cs : list Comment) :
  List.filter is_tag_warning (console (build verbose cs))
  = warning_for <$> filter unrecognized (concat (c_tags <$> cs)).
Proof.
  rewrite build_unfold, run_microtasks_console. unfold ingested.
  by rewrite fold_ingest_tag_warnings.
Qed.

(** X19: "Unrecognized comment kind" is reported only when
    [options.verbose] is set, and then exactly once for every object put
    into [misc], in the same order; without [verbose] a build never prints
    it. *)
Theorem comment_warnings_follow_verbose (verbose : bool) (cs : list Comment) :
  List.filter is_comment_warning (console (build verbose cs))
  = if verbose then WarnUnrecognizedComment <$> misc (doc (build verbose cs))
    else [].
Proof.
  rewrite build_misc, build_unfold, run_microtasks_console. unfold ingested.
  by rewrite fold_ingest_comment_warnings.
Qed.

(** ** Walks of any depth *)

Lemma every_part_walks h r parts c :
  walks_to h r parts c → ∀ tmp, every_part h (JRef r) tmp parts = WalkDone (JRef c).
Proof.
  induction 1 as [r|r part rest c c' Hfirst _ IH]; intros tmp; simpl; [done|].
  rewrite (first_child_named_get _ _ _ _ Hfirst). simpl. apply IH.
Qed.

Lemma every_part_missing_at h r parts k :
  missing_at h r parts k →
  ∀ tmp, every_part h (JRef r) tmp parts = WalkMissing (tmp ++ take (S k) parts).
Proof.
  induction 1 as [r part rest Hno|r part rest c k Hfirst _ IH]; intros tmp; simpl.
  - by destruct (getFirstChild_absent h r part Hno) as [-> | ->].
  - rewrite (first_child_named_get _ _ _ _ Hfirst). simpl.
    by rewrite IH, <- app_assoc.
Qed.

(** X20: [getClass] follows a dotted path of any length.  When the first
    segment names a known class or module and every further segment is
    found, taking each time the earliest child with that name, the promise
    is fulfilled at once with the object the walk ends at; nothing is
    subscribed or printed. *)
Theorem getClass_walks_any_depth (w : World) (className nm : string)
    (parts : list string) (a c : ref) :
  split_dot className = nm :: parts →
  top_level (doc w) nm = JRef a →
  walks_to (heap w) a parts c →
  let '(p, w') := getClass className w in
  promises w' = promises w ++ [mkPromise (Fulfilled (JRef c)) None]
  ∧ subs w' = subs w ∧ console w' = console w.
Proof.
  intros Hsplit Htop Hwalk. rewrite getClass_unfold. unfold getClass_state.
  rewrite Hsplit. simpl. rewrite Htop. simpl.
  by rewrite (every_part_walks _ _ _ _ Hwalk).
Qed.

Lemma getClass_walks_any_depth_witness :
  let '(p, w') := getClass "A.B" sample_world in
  promises w' = promises sample_world ++ [mkPromise (Fulfilled (JRef 1)) None]
  ∧ subs w' = subs sample_world ∧ console w' = console sample_world.
Proof.
  apply (getClass_walks_any_depth sample_world "A.B" "A" ["B"] 0 1);
    [reflexivity|vm_compute; reflexivity|].
  apply (walks_cons _ 0 "B" [] 1 1); [|apply walks_nil].
  exists [], [2], (interpret (comment_of [tag_of "function"; tag_name "B"; tag_memberOf "A"] "first")).
  split_and!; [vm_compute; reflexivity..|].
  intros x ex Hx. by apply elem_of_nil in Hx.
Defined.

(** X21: when the walk of [getClass] misses a segment, the call prints one
    line that names the path up to and including the first missing
    segment, leaves the promise pending, and subscribes to nothing: there
    is no retry. *)
Theorem getClass_reports_missing_segment (w : World) (className nm : string)
    (parts : list string) (a : ref) (k : nat) :
  split_dot className = nm :: parts →
  top_level (doc w) nm = JRef a →
  missing_at (heap w) a parts k →
  let '(p, w') := getClass className w in
  promises w' = promises w ++ [mkPromise Pending None]
  ∧ subs w' = subs w
  ∧ console w' = console w ++ [LogWaitingFor (join_dot (nm :: take (S k) parts))].
Proof.
  intros Hsplit Htop Hmiss. rewrite getClass_unfold. unfold getClass_state.
  rewrite Hsplit. simpl. rewrite Htop. simpl.
  by rewrite (every_part_missing_at _ _ _ _ Hmiss).
Qed.

Lemma getClass_reports_missing_segment_witness :
  let '(p, w') := getClass "Outer.Inner.deep" outer_world in
  promises w' = promises outer_world ++ [mkPromise Pending None]
  ∧ subs w' = subs outer_world
  ∧ console w' = console outer_world ++ [LogWaitingFor "Outer.Inner"].
Proof.
  apply (getClass_reports_missing_segment outer_world "Outer.Inner.deep"
           "Outer" ["Inner"; "deep"] 0 0);
    [reflexivity|vm_compute; reflexivity|].
  apply missing_at_here. intros x e Hx. vm_compute in Hx.
  by apply elem_of_nil in Hx.
Defined.
